(** * dorado-scheduling: mission configuration, field of regard and overhead

    Shallow embedding of [dorado/scheduling/mission.py], and of the loops of
    the scripts [scripts/animate_survey.py] and [scripts/metrics.py] that
    work on the observing schedule.

    Conventions of the embedding.
    - An [astropy.units.Quantity] is a real number in a fixed unit per field
      (degrees, seconds, deg/s, deg/s^2, cm^-2 s^-1, MeV); the arithmetic of
      the module is the arithmetic of the real numbers.
    - [np.maximum] on two scalars is [Rmax].
    - The module imports [slew_time], [slew_separation],
      [get_field_of_regard] and the constraint classes from sibling modules
      ([._slew], [.constraints]).  What the methods of [Mission] only call
      is a section variable, or a definition marked as modelled from the
      specification of the package. *)

From Stdlib Require Import Reals.Reals Reals.RIneq.
From Stdlib Require Import Psatz.
From Stdlib Require Import List String Bool Arith ZArith Lia.
From Stdlib Require Import Sorting.Sorted.
From Stdlib Require Import Sorting.Permutation.
Import ListNotations.

Open Scope string_scope.
Open Scope R_scope.

(** ** Data model *)

(** The constraint classes instantiated by the module.  Each one carries only
    the thresholds its constructor call is given. *)
Inductive Constraint : Type :=
| TrappedParticleFluxConstraint (flux energy : R) (particle solar : string)
| BrightEarthLimbConstraint (angle : R)
| EarthLimbConstraint (angle : R)
| SunSeparationConstraint (angle : R)
| MoonSeparationConstraint (angle : R)
| GalacticLatitudeConstraint (angle : R).

(** [FOV.from_rectangle(width)]: the only way the module builds a field of
    view. *)
Inductive FOV : Type :=
| FOV_from_rectangle (width : R).

(** [TLE(path)] read from the packaged data file, or [Spice(body, *kernels)]. *)
Inductive Orbit : Type :=
| TLE (filename : string)
| Spice (target : string) (kernels : list string).

(** The dataclass [Mission]: six fields, in declaration order. *)
Record Mission : Type := Build_Mission_record {
  constraints : list Constraint;
  fov : FOV;
  orbit : Orbit;
  min_overhead : R;
  max_angular_velocity : R;
  max_angular_acceleration : R
}.

(** ** Construction

    [@dataclass] generates an [__init__] that assigns each argument to the
    field of the same name.  The class defines no [__post_init__], so nothing
    is checked and no exception is raised. *)
Inductive ConfigurationError : Type :=
| Configuration_error.

Definition Mission_init (cs : list Constraint) (f : FOV) (o : Orbit)
    (ovh vel acc : R) : ConfigurationError + Mission :=
  inr (Build_Mission_record cs f o ovh vel acc).

(** ** Attribute assignment

    [@dataclass] is applied without arguments, hence [frozen=False]: the
    class keeps [object.__setattr__].  A frozen dataclass would raise
    [FrozenInstanceError] instead. *)
Inductive field : Type :=
| f_constraints | f_fov | f_orbit
| f_min_overhead | f_max_angular_velocity | f_max_angular_acceleration.

Definition field_type (f : field) : Type :=
  match f with
  | f_constraints => list Constraint
  | f_fov => FOV
  | f_orbit => Orbit
  | f_min_overhead => R
  | f_max_angular_velocity => R
  | f_max_angular_acceleration => R
  end.

Definition getattr (m : Mission) (f : field) : field_type f :=
  match f with
  | f_constraints => constraints m
  | f_fov => fov m
  | f_orbit => orbit m
  | f_min_overhead => min_overhead m
  | f_max_angular_velocity => max_angular_velocity m
  | f_max_angular_acceleration => max_angular_acceleration m
  end.

Inductive FrozenInstanceError : Type :=
| Frozen_instance_error.

Definition dataclass_frozen : bool := false.

Definition assign (m : Mission) (f : field) : field_type f -> Mission :=
  match f with
  | f_constraints => fun v =>
      Build_Mission_record v (fov m) (orbit m) (min_overhead m)
        (max_angular_velocity m) (max_angular_acceleration m)
  | f_fov => fun v =>
      Build_Mission_record (constraints m) v (orbit m) (min_overhead m)
        (max_angular_velocity m) (max_angular_acceleration m)
  | f_orbit => fun v =>
      Build_Mission_record (constraints m) (fov m) v (min_overhead m)
        (max_angular_velocity m) (max_angular_acceleration m)
  | f_min_overhead => fun v =>
      Build_Mission_record (constraints m) (fov m) (orbit m) v
        (max_angular_velocity m) (max_angular_acceleration m)
  | f_max_angular_velocity => fun v =>
      Build_Mission_record (constraints m) (fov m) (orbit m) (min_overhead m)
        v (max_angular_acceleration m)
  | f_max_angular_acceleration => fun v =>
      Build_Mission_record (constraints m) (fov m) (orbit m) (min_overhead m)
        (max_angular_velocity m) v
  end.

Definition Mission_setattr (m : Mission) (f : field) (v : field_type f)
    : FrozenInstanceError + Mission :=
  if dataclass_frozen then inl Frozen_instance_error else inr (assign m f v).

(** ** Slew model *)

(** Modelled from the spec: [slew_time] is defined in
    [dorado/scheduling/_slew.py], outside the module embedded here; its body
    is missing.  The specification gives the
    distance needed to reach the maximum velocity from rest,
    [d_acc = max_velocity^2 / (2 max_acceleration)], a triangular profile
    when [separation <= 2 d_acc] and a trapezoidal one otherwise. *)
Definition d_acc (max_velocity max_acceleration : R) : R :=
  max_velocity ^ 2 / (2 * max_acceleration).

Definition slew_time (separation max_velocity max_acceleration : R) : R :=
  if Rle_dec separation (2 * d_acc max_velocity max_acceleration)
  then 2 * sqrt (separation / max_acceleration)
  else separation / max_velocity + max_velocity / max_acceleration.

(** ** Methods of [Mission]

    A method receives [self] and may read or rebind its attributes, so a
    method body is a computation over the current [Mission] that returns a
    value together with the [Mission] it leaves behind. *)
Definition Method (A : Type) : Type := Mission -> A * Mission.

Definition ret {A : Type} (x : A) : Method A := fun self => (x, self).

Definition bind {A B : Type} (c : Method A) (k : A -> Method B) : Method B :=
  fun self => let (x, self') := c self in k x self'.

(** [self.<f>] *)
Definition self_attr (f : field) : Method (field_type f) :=
  fun self => (getattr self f, self).

Notation "x <- c ;; k" := (bind c (fun x => k))
  (at level 61, c at next level, right associativity).

Definition result {A : Type} (c : Method A) (self : Mission) : A :=
  fst (c self).

Definition final {A : Type} (c : Method A) (self : Mission) : Mission :=
  snd (c self).

Section Methods.

(** Positional and keyword arguments forwarded untouched ([*args,
    **kwargs]), the result type of the field-of-regard function, and the
    type of pointing centers. *)
Variables Args Grid Center : Type.

(** [constraints.get_field_of_regard(orbit, constraints, *args, **kwargs)] *)
Variable get_field_of_regard : Orbit -> list Constraint -> Args -> Grid.

(** [_slew.slew_separation(center_a, center_b)] *)
Variable slew_separation : Center -> Center -> R.

Definition Mission_get_field_of_regard_body (args : Args) : Method Grid :=
  o <- self_attr f_orbit ;;
  cs <- self_attr f_constraints ;;
  ret (get_field_of_regard o cs args).

Definition Mission_overhead_body (center_a center_b : Center) : Method R :=
  ovh <- self_attr f_min_overhead ;;
  vel <- self_attr f_max_angular_velocity ;;
  acc <- self_attr f_max_angular_acceleration ;;
  ret (Rmax ovh (slew_time (slew_separation center_a center_b) vel acc)).

Definition Mission_get_field_of_regard (self : Mission) (args : Args)
    : Grid :=
  result (Mission_get_field_of_regard_body args) self.

Definition Mission_overhead (self : Mission) (center_a center_b : Center)
    : R :=
  result (Mission_overhead_body center_a center_b) self.

End Methods.

Arguments Mission_get_field_of_regard_body {Args Grid} _ _ _.
Arguments Mission_get_field_of_regard {Args Grid} _ _ _.
Arguments Mission_overhead_body {Center} _ _ _ _.
Arguments Mission_overhead {Center} _ _ _ _.

(** ** The predefined missions *)

Definition _read_orbit (filename : string) : Orbit := TLE filename.

Definition dorado : Mission := {|
  constraints :=
    [ TrappedParticleFluxConstraint 1 20 "p" "max";
      TrappedParticleFluxConstraint 100 1 "e" "max";
      BrightEarthLimbConstraint 28;
      EarthLimbConstraint 6;
      SunSeparationConstraint 46;
      MoonSeparationConstraint 23;
      GalacticLatitudeConstraint 10 ];
  fov := FOV_from_rectangle 7.1;
  orbit := _read_orbit "dorado-625km-sunsync.tle";
  min_overhead := 0;
  max_angular_velocity := 0.872;
  max_angular_acceleration := 0.244
|}.

Definition ultrasat : Mission := {|
  constraints :=
    [ EarthLimbConstraint 28;
      SunSeparationConstraint 46;
      MoonSeparationConstraint 23;
      GalacticLatitudeConstraint 10 ];
  fov := FOV_from_rectangle 14.1;
  orbit := _read_orbit "goes17.tle";
  min_overhead := 0;
  max_angular_velocity := 0.872;
  max_angular_acceleration := 0.244
|}.

Definition uvex : Mission := {|
  constraints :=
    [ EarthLimbConstraint 25;
      SunSeparationConstraint 46;
      MoonSeparationConstraint 25 ];
  fov := FOV_from_rectangle 3.3;
  orbit :=
    Spice "MGS SIMULATION"
      [ "https://archive.stsci.edu/missions/tess/models/TESS_EPH_PRE_LONG_2021252_21.bsp";
        "https://naif.jpl.nasa.gov/pub/naif/generic_kernels/pck/earth_latest_high_prec.bpc";
        "https://naif.jpl.nasa.gov/pub/naif/generic_kernels/pck/pck00010.tpc" ];
  min_overhead := 0;
  max_angular_velocity := 0.872;
  max_angular_acceleration := 0.244
|}.

(** ** Validity of a configuration

    Modelled from the spec: the invariant the specification attaches to a
    [Mission] (all numeric parameters strictly positive, [min_overhead]
    non-negative, particle species and solar-activity level among the known
    ones).  The species and levels are the strings the module itself passes:
    ["p"], ["e"] and ["min"], ["max"]. *)
Definition known_particle (s : string) : Prop := s = "p" \/ s = "e".

Definition known_solar (s : string) : Prop := s = "min" \/ s = "max".

Definition Constraint_valid (c : Constraint) : Prop :=
  match c with
  | TrappedParticleFluxConstraint flux energy particle solar =>
      0 < flux /\ 0 < energy /\ known_particle particle /\ known_solar solar
  | BrightEarthLimbConstraint angle
  | EarthLimbConstraint angle
  | SunSeparationConstraint angle
  | MoonSeparationConstraint angle
  | GalacticLatitudeConstraint angle => 0 < angle
  end.

Definition FOV_valid (f : FOV) : Prop :=
  match f with FOV_from_rectangle width => 0 < width end.

Definition Mission_invariant (m : Mission) : Prop :=
  Forall Constraint_valid (constraints m) /\
  FOV_valid (fov m) /\
  0 <= min_overhead m /\
  0 < max_angular_velocity m /\
  0 < max_angular_acceleration m.

(** ** Constraint evaluation and the field of regard *)

Definition Rleb (x y : R) : bool := if Rle_dec x y then true else false.

Fixpoint zip_with {A B C : Type} (f : A -> B -> C) (xs : list A)
    (ys : list B) : list C :=
  match xs, ys with
  | x :: xs', y :: ys' => f x y :: zip_with f xs' ys'
  | _, _ => []
  end.

(** A boolean grid indexed by (time index, sky-pixel index). *)
Definition grid : Type := list (list bool).

Definition grid_of {T D : Type} (f : T -> D -> bool) (times : list T)
    (pixels : list D) : grid :=
  map (fun t => map (f t) pixels) times.

Definition grid_and (g1 g2 : grid) : grid := zip_with (zip_with andb) g1 g2.

Definition cell (g : grid) (i j : nat) : option bool :=
  match nth_error g i with
  | Some row => nth_error row j
  | None => None
  end.

Module Constraints.
Section Evaluate.

Variables Time Direction Position : Type.

(** The orbit as an opaque capability: position of the spacecraft at a time. *)
Variable position : Orbit -> Time -> Position.

(** The radiation-belt model as an opaque lookup keyed by position, energy,
    particle species and solar-activity level. *)
Variable get_flux : Position -> R -> string -> string -> R.

(** The geometric tests of the limb, separation and latitude constraints,
    which no claim looks into. *)
Variable geometry_permits :
  Constraint -> Position -> Time -> Direction -> bool.

(** The sky grid: the pixel centers in the grid's order. *)
Variable sky_grid : list Direction.

(** Modelled from the spec: the [evaluate] methods of the constraint classes
    are defined in [dorado/scheduling/constraints.py] and in astroplan,
    outside the module embedded here; their bodies are missing.  [True]
    means that the observation is permitted.  The
    trapped-particle constraint forbids a time step when the modelled flux
    at the spacecraft position exceeds its [flux] threshold. *)
Definition permits (c : Constraint) (o : Orbit) (t : Time) (d : Direction)
    : bool :=
  match c with
  | TrappedParticleFluxConstraint flux energy particle solar =>
      Rleb (get_flux (position o t) energy particle solar) flux
  | _ => geometry_permits c (position o t) t d
  end.

Definition evaluate (c : Constraint) (o : Orbit) (times : list Time)
    (directions : list Direction) : grid :=
  grid_of (permits c o) times directions.

(** Modelled from the spec: the module-level [get_field_of_regard] is
    defined in [dorado/scheduling/constraints.py], outside the module
    embedded here; its body is missing.  The
    specification's combination rule is the elementwise AND over all
    constraints of their masks, reduced in list order. *)
Definition get_field_of_regard (o : Orbit) (cs : list Constraint)
    (times : list Time) : grid :=
  fold_left (fun acc c => grid_and acc (evaluate c o times sky_grid))
    cs (grid_of (fun _ _ => true) times sky_grid).

End Evaluate.
End Constraints.

Arguments Constraints.permits {Time Direction Position} _ _ _ _ _ _ _.
Arguments Constraints.evaluate {Time Direction Position} _ _ _ _ _ _ _.
Arguments Constraints.get_field_of_regard {Time Direction Position}
  _ _ _ _ _ _ _.

(** ** Sample instances, used to run the definitions *)

(** A center as (right ascension, declination), in degrees. *)
Definition sample_center : Type := (R * R)%type.

(** A separation that is zero between equal centers and never negative. *)
Definition sample_separation (a b : sample_center) : R :=
  Rabs (fst a - fst b) + Rabs (snd a - snd b).

(** Times and directions as indices; the spacecraft position is the time
    index; the flux is high at even positions; a direction is visible to the
    geometric constraints when its index exceeds the time index. *)
Definition sample_position (_ : Orbit) (t : nat) : nat := t.

Definition sample_flux (p : nat) (_ : R) (_ _ : string) : R :=
  if Nat.even p then 1000 else 0.

Definition sample_geometry (_ : Constraint) (_ : nat) (t d : nat) : bool :=
  Nat.ltb t d.

Definition sample_sky : list nat := [0; 1; 2; 3]%nat.

Definition sample_field_of_regard (o : Orbit) (cs : list Constraint)
    (times : list nat) : grid :=
  Constraints.get_field_of_regard sample_position sample_flux sample_geometry
    sample_sky o cs times.



(** [uvex] with its slew-rate limit negated. *)
Definition negative_velocity_mission : Mission :=
  assign uvex f_max_angular_velocity (-0.872).

(** * The scripts: schedule table and containers *)

(** The exceptions the modelled statements can raise. *)
Inductive exception : Type :=
| ZeroDivisionError
| ValueError
| IndexError
| KeyError.

(** A row of the schedule table, with the columns the scripts read: the
    start time, the survey name, the pointing center and the file name of
    the survey's sky map. *)
Record row (Center : Type) : Type := Build_row {
  time : R;
  survey : string;
  center : Center;
  skymap : string
}.

Arguments Build_row {Center} _ _ _ _.
Arguments time {Center} _.
Arguments survey {Center} _.
Arguments center {Center} _.
Arguments skymap {Center} _.

(** A [dict] with string keys is an association list in insertion order. *)
Definition dict (V : Type) : Type := list (string * V).

Fixpoint dict_get {V : Type} (d : dict V) (k : string) : option V :=
  match d with
  | [] => None
  | (k', v) :: d' => if String.eqb k k' then Some v else dict_get d' k
  end.

Definition dict_mem {V : Type} (d : dict V) (k : string) : bool :=
  match dict_get d k with
  | Some _ => true
  | None => false
  end.

Fixpoint dict_set {V : Type} (d : dict V) (k : string) (v : V) : dict V :=
  match d with
  | [] => [(k, v)]
  | (k', v') :: d' =>
      if String.eqb k k' then (k, v) :: d' else (k', v') :: dict_set d' k v
  end.

(** [l.index(x)]: the first position of [x], or a [ValueError]. *)
Fixpoint list_index (l : list string) (x : string) : exception + nat :=
  match l with
  | [] => inl ValueError
  | y :: l' =>
      if String.eqb x y then inr 0%nat
      else
        match list_index l' x with
        | inl e => inl e
        | inr i => inr (S i)
        end
  end.

(** * The animation script, [dorado/scheduling/scripts/animate_survey.py] *)

Module AnimateSurvey.

Local Open Scope nat_scope.

(** ** Frame selection

    [[
    nslice = int(len(field_of_regard)/float(args.nframes))
    with tqdm(total=len(field_of_regard)/float(nslice)) as progress:
        ...
        frames = [ii for ii in range(len(field_of_regard))]
        frames = frames[::nslice]
    ]]
    [args.nframes] is an [int].  Both quotients are float divisions, which
    raise [ZeroDivisionError] on a zero divisor; [int] truncates towards
    zero. *)

(** The integers below [float_exact] in absolute value are doubles.
    [float(n)] raises [OverflowError] for [|n| >= float_overflow], where
    rounding to nearest leaves the range of the doubles. *)
Definition float_exact : Z := 2 ^ 53.

Definition float_overflow : Z := 2 ^ 1024 - 2 ^ 970.

(** Every [step]-th element of [l], the first one after [skip] elements. *)
Fixpoint every_nth_from {A : Type} (step skip : nat) (l : list A) : list A :=
  match l with
  | [] => []
  | x :: l' =>
      match skip with
      | O => x :: every_nth_from step (step - 1) l'
      | S skip' => every_nth_from step skip' l'
      end
  end.

(** The extended slice [l[::k]]: a zero step is a [ValueError], a negative
    step walks from the last element backwards. *)
Definition slice_step {A : Type} (l : list A) (k : Z) : exception + list A :=
  if (k =? 0)%Z then inl ValueError
  else if (0 <? k)%Z then inr (every_nth_from (Z.to_nat k) 0 l)
  else inr (every_nth_from (Z.to_nat (- k)) 0 (rev l)).

(** [int(a / float(b))] for [|a| < float_exact] and [|b| < float_overflow]:
    there the conversion of [b] succeeds and the rounded quotient truncates
    to the integer quotient.  The inputs outside that range, on which
    [float(b)] raises [OverflowError] or the quotient is rounded to another
    integer, are not described by this definition. *)
Definition float_div_int (a b : Z) : exception + Z :=
  if (b =? 0)%Z then inl ZeroDivisionError else inr (Z.quot a b).

Definition nslice (len_field_of_regard : nat) (nframes : Z)
    : exception + Z :=
  float_div_int (Z.of_nat len_field_of_regard) nframes.

Definition frames (len_field_of_regard : nat) (nframes : Z)
    : exception + list nat :=
  match nslice len_field_of_regard nframes with
  | inl e => inl e
  | inr k =>
      (* the progress bar's total, len(field_of_regard)/float(nslice) *)
      if (k =? 0)%Z then inl ZeroDivisionError
      else slice_step (seq 0 len_field_of_regard) k
  end.

(** ** Integrated probability

    [[
    indices = np.asarray([], dtype=np.intp)
    prob = []
    for row in schedule:
        new_indices = tiling_model.get_footprint_healpix(row['center'])
        indices = np.unique(np.concatenate((indices, new_indices)))
        prob.append(100 * skymap[indices].sum())
    ]]
    Pixel indices are natural numbers. *)

(** [np.unique]: the sorted values, each once. *)
Fixpoint insert_unique (x : nat) (l : list nat) : list nat :=
  match l with
  | [] => [x]
  | y :: l' =>
      if x <? y then x :: l
      else if x =? y then l
      else y :: insert_unique x l'
  end.

Definition np_unique (l : list nat) : list nat :=
  fold_right insert_unique [] l.

(** [a[indices]] for an index array: an index past the end is an
    [IndexError]. *)
Fixpoint take (a : list R) (indices : list nat) : exception + list R :=
  match indices with
  | [] => inr []
  | i :: rest =>
      match nth_error a i with
      | None => inl IndexError
      | Some v =>
          match take a rest with
          | inl e => inl e
          | inr vs => inr (v :: vs)
          end
      end
  end.

Definition np_sum (l : list R) : R := fold_right Rplus 0%R l.

Section Coverage.

Variable Center : Type.

(** [tiling_model.get_footprint_healpix(center)] *)
Variable get_footprint_healpix : Center -> list nat.

(** The rasterized sky map, one probability per pixel. *)
Variable skymap_prob : list R.

Definition coverage_step (state : list nat * list R) (r : row Center)
    : exception + (list nat * list R) :=
  let (indices, prob) := state in
  let new_indices := get_footprint_healpix (center r) in
  let indices := np_unique (indices ++ new_indices)%list in
  match take skymap_prob indices with
  | inl e => inl e
  | inr values => inr (indices, (prob ++ [(100 * np_sum values)%R])%list)
  end.

Fixpoint coverage_loop (schedule : list (row Center))
    (state : list nat * list R) : exception + (list nat * list R) :=
  match schedule with
  | [] => inr state
  | r :: rest =>
      match coverage_step state r with
      | inl e => inl e
      | inr state' => coverage_loop rest state'
      end
  end.

(** The final [indices] and [prob]. *)
Definition integrated_probability (schedule : list (row Center))
    : exception + (list nat * list R) :=
  coverage_loop schedule ([], []).

End Coverage.

Arguments coverage_step {Center} _ _ _ _.
Arguments coverage_loop {Center} _ _ _ _.
Arguments integrated_probability {Center} _ _ _.

(** ** Sky maps per row

    [[
    clss = []
    skymaps = []
    skymaps_hold = {}
    clss_hold = {}
    for ii, row in enumerate(schedule):
        ...
        survey = row["survey"]
        if (survey not in skymaps_hold) or (survey == "GW"):
            skymap = read_sky_map(row['skymap'], moc=True)[...]
            ...
            cls = find_greedy_credible_levels(skymap_hires)
            skymaps_hold[survey] = skymap
            clss_hold[survey] = cls
        clss.append(clss_hold[survey])
        skymaps.append(skymaps_hold[survey])
    ]] *)
Section Skymaps.

Variables Center Skymap Cls : Type.

(** What the body of the [if] computes from the file named by
    [row['skymap']]: the sky map rasterized at the working resolution, and
    the credible levels of the full-resolution map. *)
Variable load_skymap : string -> Skymap.
Variable load_cls : string -> Cls.

Record skymaps_state : Type := Build_skymaps_state {
  skymaps_hold : dict Skymap;
  clss_hold : dict Cls;
  clss : list Cls;
  skymaps : list Skymap
}.

Definition skymaps_initial : skymaps_state :=
  Build_skymaps_state [] [] [] [].

Definition skymaps_step (st : skymaps_state) (r : row Center)
    : exception + skymaps_state :=
  let s := survey r in
  let st :=
    if negb (dict_mem (skymaps_hold st) s) || String.eqb s "GW" then
      Build_skymaps_state
        (dict_set (skymaps_hold st) s (load_skymap (skymap r)))
        (dict_set (clss_hold st) s (load_cls (skymap r)))
        (clss st) (skymaps st)
    else st in
  match dict_get (clss_hold st) s with
  | None => inl KeyError
  | Some c =>
      match dict_get (skymaps_hold st) s with
      | None => inl KeyError
      | Some m =>
          inr (Build_skymaps_state (skymaps_hold st) (clss_hold st)
                 (clss st ++ [c])%list (skymaps st ++ [m])%list)
      end
  end.

Fixpoint skymaps_loop (schedule : list (row Center)) (st : skymaps_state)
    : exception + skymaps_state :=
  match schedule with
  | [] => inr st
  | r :: rest =>
      match skymaps_step st r with
      | inl e => inl e
      | inr st' => skymaps_loop rest st'
      end
  end.

End Skymaps.

Arguments skymaps_hold {Skymap Cls} _.
Arguments clss_hold {Skymap Cls} _.
Arguments clss {Skymap Cls} _.
Arguments skymaps {Skymap Cls} _.
Arguments skymaps_initial {Skymap Cls}.
Arguments skymaps_step {Center Skymap Cls} _ _ _ _.
Arguments skymaps_loop {Center Skymap Cls} _ _ _ _.

(** The row whose file a row's sky map is read from: the row itself for the
    survey ["GW"], the first row of the same survey otherwise. *)
Definition skymap_source {Center : Type} (schedule : list (row Center))
    (r : row Center) : row Center :=
  if String.eqb (survey r) "GW" then r
  else
    match find (fun r' => String.eqb (survey r) (survey r')) schedule with
    | Some r' => r'
    | None => r
    end.

(** The caches after the rows [seen]: every survey other than ["GW"] is
    cached exactly when a row of it was seen, with what the file of its first
    row holds. *)
Definition skymaps_invariant {Center Skymap Cls : Type}
    (load_skymap : string -> Skymap) (load_cls : string -> Cls)
    (seen : list (row Center)) (st : skymaps_state Skymap Cls) : Prop :=
  forall s : string, s <> "GW" ->
    dict_get (skymaps_hold st) s =
      option_map (fun r => load_skymap (skymap r))
        (find (fun r' => String.eqb s (survey r')) seen) /\
    dict_get (clss_hold st) s =
      option_map (fun r => load_cls (skymap r))
        (find (fun r' => String.eqb s (survey r')) seen).

(** ** Footprints of a frame

    [[
    survey_set = list(set(schedule["survey"]))
    colors = seaborn.color_palette('Set2', n_colors=len(survey_set))
    ...
    def animate(i):
        ...
        for row in schedule:
            if times[i] >= row['time']:
                poly = tiling_model.get_footprint_polygon(row['center'])
                idx = survey_set.index(row['survey'])
                footprint_color = colors[idx]
                ...
    ]]
    with [times = schedule["time"]].  The loop is modelled up to the choice
    of the center and the color of each patch. *)

Section Frame.

Variables Center Color : Type.
Variable colors : list Color.
Variable survey_set : list string.

Fixpoint frame_patches (rows : list (row Center)) (now : R)
    : exception + list (Center * Color) :=
  match rows with
  | [] => inr []
  | r :: rest =>
      if Rleb (time r) now then
        match list_index survey_set (survey r) with
        | inl e => inl e
        | inr idx =>
            match nth_error colors idx with
            | None => inl IndexError
            | Some footprint_color =>
                match frame_patches rest now with
                | inl e => inl e
                | inr patches => inr ((center r, footprint_color) :: patches)
                end
            end
        end
      else frame_patches rest now
  end.

Definition animate (schedule : list (row Center)) (i : nat)
    : exception + list (Center * Color) :=
  match nth_error (map time schedule) i with
  | None => inl IndexError
  | Some now => frame_patches schedule now
  end.

End Frame.

Arguments frame_patches {Center Color} _ _ _ _.
Arguments animate {Center Color} _ _ _ _.

End AnimateSurvey.

(** * The metrics script, [dorado/scheduling/scripts/metrics.py] *)

Module Metrics.

Local Open Scope nat_scope.

(** [np.where(mask)[0]]: the positions at which the mask holds. *)
Fixpoint where_from {A : Type} (mask : A -> bool) (l : list A) (start : nat)
    : list nat :=
  match l with
  | [] => []
  | x :: l' =>
      if mask x then start :: where_from mask l' (S start)
      else where_from mask l' (S start)
  end.

Definition np_where {A : Type} (mask : A -> bool) (l : list A) : list nat :=
  where_from mask l 0.

(** [np.isclose(a, b)] with its default tolerances. *)
Definition rtol : R := 1e-5.
Definition atol : R := 1e-8.

Definition isclose (a b : R) : bool :=
  Rleb (Rabs (a - b)) (atol + rtol * Rabs b).

(** [a[i] = v] on an array of counts. *)
Fixpoint array_set (a : list nat) (i v : nat) : exception + list nat :=
  match a, i with
  | [], _ => inl IndexError
  | _ :: a', O => inr (v :: a')
  | x :: a', S i' =>
      match array_set a' i' v with
      | inl e => inl e
      | inr a'' => inr (x :: a'')
      end
  end.

(** [exposures[key][cc] = v] *)
Definition set_exposure (exposures : dict (list nat)) (key : string)
    (cc v : nat) : exception + dict (list nat) :=
  match dict_get exposures key with
  | None => inl KeyError
  | Some a =>
      match array_set a cc v with
      | inl e => inl e
      | inr a' => inr (dict_set exposures key a')
      end
  end.

(** [exposures[key][cc]], read back. *)
Definition exposure (exposures : dict (list nat)) (key : string) (cc : nat)
    : option nat :=
  match dict_get exposures key with
  | None => None
  | Some a => nth_error a cc
  end.

Section Main.

Variable Center : Type.

(** The schedule table, and the row numbers in the order of its index on
    the [time] column ([schedule.add_index('time')]): [schedule.iloc]
    addresses rows by their position in that order. *)
Variable schedule : list (row Center).
Variable time_index : list nat.

(** [idx] of [schedule["center"].match_to_catalog_sky(centers)]: for each
    row, the number of the tile closest to its center. *)
Variable idx : list nat.

(** [list(set(schedule["survey"]))] and [len(tiling_model.centers)]. *)
Variable survey_set : list string.
Variable ntiles : nat.

(** [schedule.iloc[positions]] *)
Fixpoint iloc (positions : list nat) : exception + list (row Center) :=
  match positions with
  | [] => inr []
  | i :: rest =>
      match nth_error time_index i with
      | None => inl IndexError
      | Some n =>
          match nth_error schedule n with
          | None => inl IndexError
          | Some r =>
              match iloc rest with
              | inl e => inl e
              | inr rows => inr (r :: rows)
              end
          end
      end
  end.

(** [[
    for survey in survey_set:
        dts[survey] = []
        exposures[survey] = np.zeros((len(tiling_model.centers), 1))
    exposures['all'] = np.zeros((len(tiling_model.centers), 1))
    ]] *)
Definition initial : dict (list nat) * dict (list R) :=
  let (exposures, dts) :=
    fold_left
      (fun (st : dict (list nat) * dict (list R)) survey =>
         (dict_set (fst st) survey (repeat 0 ntiles),
          dict_set (snd st) survey []))
      survey_set ([], []) in
  (dict_set exposures "all" (repeat 0 ntiles), dts).

(** [[
    for ii in range(len(idz)-1):
        jj, kk = idz[ii], idz[ii+1]
        dt = exps[kk]["time"] - exps[jj]["time"]
        if np.isclose(dt.jd, 0.0):
            continue
        dts[survey].append(dt.jd)
    ]] *)
Fixpoint gaps_loop (exps : list (row Center)) (survey : string)
    (idz : list nat) (dts : dict (list R)) : exception + dict (list R) :=
  match idz with
  | jj :: ((kk :: _) as rest) =>
      match nth_error exps kk, nth_error exps jj with
      | Some rk, Some rj =>
          let dt := (time rk - time rj)%R in
          if isclose dt 0 then gaps_loop exps survey rest dts
          else
            match dict_get dts survey with
            | None => inl KeyError
            | Some l =>
                gaps_loop exps survey rest
                  (dict_set dts survey (l ++ [dt])%list)
            end
      | _, _ => inl IndexError
      end
  | _ => inr dts
  end.

(** [[
    for ss, survey in enumerate(survey_set):
        idz = np.where(exps["survey"] == survey)[0]
        if len(idz) == 0:
            continue
        exposures[survey][cc] = len(idz)
        for ii in range(len(idz)-1): ...
    ]] *)
Fixpoint surveys_loop (exps : list (row Center)) (cc : nat)
    (surveys : list string) (st : dict (list nat) * dict (list R))
    : exception + dict (list nat) * dict (list R) :=
  match surveys with
  | [] => inr st
  | s :: rest =>
      let idz := np_where (fun r => String.eqb (survey r) s) exps in
      match idz with
      | [] => surveys_loop exps cc rest st
      | _ =>
          match set_exposure (fst st) s cc (List.length idz) with
          | inl e => inl e
          | inr exposures =>
              match gaps_loop exps s idz (snd st) with
              | inl e => inl e
              | inr dts => surveys_loop exps cc rest (exposures, dts)
              end
          end
      end
  end.

(** [[
    for cc, cent in enumerate(tiling_model.centers):
        idy = np.where(idx == cc)[0]
        if len(idy) == 0:
            continue
        exps = schedule.iloc[idy]
        exposures['all'][cc] = len(exps)
        for ss, survey in enumerate(survey_set): ...
    ]] *)
Definition tile_step (st : dict (list nat) * dict (list R)) (cc : nat)
    : exception + dict (list nat) * dict (list R) :=
  let idy := np_where (Nat.eqb cc) idx in
  match idy with
  | [] => inr st
  | _ =>
      match iloc idy with
      | inl e => inl e
      | inr exps =>
          match set_exposure (fst st) "all" cc (List.length exps) with
          | inl e => inl e
          | inr exposures => surveys_loop exps cc survey_set (exposures, snd st)
          end
      end
  end.

Fixpoint tiles_loop (tiles : list nat) (st : dict (list nat) * dict (list R))
    : exception + dict (list nat) * dict (list R) :=
  match tiles with
  | [] => inr st
  | cc :: rest =>
      match tile_step st cc with
      | inl e => inl e
      | inr st' => tiles_loop rest st'
      end
  end.

(** The dictionaries [exposures] and [dts] the plots are drawn from. *)
Definition main : exception + dict (list nat) * dict (list R) :=
  tiles_loop (seq 0 ntiles) initial.

End Main.

Arguments iloc {Center} _ _ _.
Arguments gaps_loop {Center} _ _ _ _.
Arguments surveys_loop {Center} _ _ _ _.
Arguments tile_step {Center} _ _ _ _ _ _.
Arguments tiles_loop {Center} _ _ _ _ _ _.
Arguments main {Center} _ _ _ _ _.

(** The number of rows of a survey among [exps]. *)
Definition survey_count {Center : Type} (exps : list (row Center))
    (s : string) : nat :=
  List.length (filter (fun r => String.eqb (survey r) s) exps).

(** What the loops of [main] keep true of [exposures] and [dts]: every
    survey and ['all'] has an array of [ntiles] counts, every survey has a
    list of time differences, and every recorded difference satisfies
    [far]. *)
Definition state_ok (far : R -> Prop) (survey_set : list string)
    (ntiles : nat) (st : dict (list nat) * dict (list R)) : Prop :=
  (forall k, In k ("all" :: survey_set) ->
     exists a, dict_get (fst st) k = Some a /\ List.length a = ntiles) /\
  (forall s, In s survey_set -> exists g, dict_get (snd st) s = Some g) /\
  (forall s g, dict_get (snd st) s = Some g -> Forall far g).

(** What [main] leaves in column [cc] of [exposures], in terms of the rows
    [exps] that [schedule.iloc] returns for the tile. *)
Definition column_ok {Center : Type} (schedule : list (row Center))
    (time_index idx : list nat) (survey_set : list string)
    (exposures : dict (list nat)) (cc : nat) : Prop :=
  exists exps,
    iloc schedule time_index (np_where (Nat.eqb cc) idx) = inr exps /\
    List.length exps = List.length (filter (Nat.eqb cc) idx) /\
    (forall r, In r exps -> In r schedule) /\
    (forall s, In s survey_set -> survey_count exps s <> 0 ->
       exposure exposures s cc = Some (survey_count exps s)) /\
    (forall s, In s survey_set -> s <> "all" -> survey_count exps s = 0 ->
       exposure exposures s cc = Some 0) /\
    (~ In "all" survey_set \/ survey_count exps "all" = 0 ->
       exposure exposures "all" cc = Some (List.length exps)).

End Metrics.

(** ** Sample inputs of the animation script *)

(** Tiles on a sky of four pixels: the footprint of center [c] is the
    pixels [c] and [c + 1]. *)
Definition sample_footprint (c : nat) : list nat := [c; S c].

Definition sample_skymap : list R := [0.1; 0.2; 0.3; 0.4].

Definition sample_schedule : list (row nat) :=
  [ Build_row 0 "baseline" 1%nat "baseline.fits";
    Build_row 10 "GW" 0%nat "gw-1.fits";
    Build_row 20 "baseline" 2%nat "other.fits";
    Build_row 30 "GW" 1%nat "gw-2.fits" ].

(** ** Sample inputs of the metrics script *)

(** The tile matched to each row of the sample schedule, the rows in time
    order and the surveys of the schedule, on three tiles. *)
Definition sample_idx : list nat := [1; 0; 2; 1]%nat.

Definition sample_time_index : list nat := [0; 1; 2; 3]%nat.

Definition sample_survey_set : list string := ["GW"; "baseline"].

(** Three rows of one survey on the same tile, the last two at the same
    time. *)
Definition gap_schedule : list (row nat) :=
  [ Build_row 0 "deep" 0%nat "deep.fits";
    Build_row 1 "deep" 0%nat "deep.fits";
    Build_row 1 "deep" 0%nat "deep.fits" ].

(** A schedule with a survey that is itself called ["all"]: two rows on
    the same tile. *)
Definition collision_schedule : list (row nat) :=
  [ Build_row 0 "all" 0%nat "all.fits";
    Build_row 1 "deep" 0%nat "deep.fits" ].

(** * Properties *)

(** ** The slew model *)

Lemma two_d_acc (v a : R) : 0 < a -> 2 * d_acc v a = v ^ 2 / a.
Proof.
  intros Ha. unfold d_acc. field. lra.
Qed.

Lemma slew_time_triangular (s v a : R) :
  s <= 2 * d_acc v a -> slew_time s v a = 2 * sqrt (s / a).
Proof.
  intros Hs. unfold slew_time.
  destruct (Rle_dec s (2 * d_acc v a)) as [_ | Hn]; [reflexivity | contradiction].
Qed.

Lemma slew_time_trapezoidal (s v a : R) :
  2 * d_acc v a < s -> slew_time s v a = s / v + v / a.
Proof.
  intros Hs. unfold slew_time.
  destruct (Rle_dec s (2 * d_acc v a)) as [Hle | _]; [lra | reflexivity].
Qed.

Lemma div_pos (x y : R) : 0 <= x -> 0 < y -> 0 <= x / y.
Proof.
  intros Hx Hy. unfold Rdiv.
  apply Rmult_le_pos; [assumption | left; apply Rinv_0_lt_compat; assumption].
Qed.

Lemma div_le_compat (x y z : R) : 0 < z -> x <= y -> x / z <= y / z.
Proof.
  intros Hz Hxy. unfold Rdiv.
  apply Rmult_le_compat_r; [left; apply Rinv_0_lt_compat; assumption | assumption].
Qed.

(** The two profiles take the same time at the crossover separation. *)
Lemma crossover_agreement (v a : R) :
  0 < v -> 0 < a ->
  2 * sqrt (2 * d_acc v a / a) = 2 * d_acc v a / v + v / a.
Proof.
  intros Hv Ha. rewrite (two_d_acc v a Ha).
  replace (v ^ 2 / a / a) with ((v / a) ^ 2) by (field; lra).
  rewrite sqrt_pow2 by (apply div_pos; lra).
  field. lra.
Qed.

Lemma slew_time_nonneg (s v a : R) :
  0 <= s -> 0 < v -> 0 < a -> 0 <= slew_time s v a.
Proof.
  intros Hs Hv Ha. unfold slew_time.
  destruct (Rle_dec s (2 * d_acc v a)) as [_ | _].
  - pose proof (sqrt_pos (s / a)). lra.
  - pose proof (div_pos s v Hs Hv).
    pose proof (div_pos v a (Rlt_le _ _ Hv) Ha). lra.
Qed.


(** C4: for a separation [s >= 0] and limits [v > 0], [a > 0], [slew_time]
    is [2 sqrt (s / a)] when [s <= 2 d_acc] and [s / v + v / a] otherwise,
    where [d_acc = v^2 / (2 a)]. *)
Theorem slew_time_profiles (s v a : R) :
  0 <= s -> 0 < v -> 0 < a ->
  d_acc v a = v ^ 2 / (2 * a) /\
  (s <= 2 * (v ^ 2 / (2 * a)) -> slew_time s v a = 2 * sqrt (s / a)) /\
  (~ s <= 2 * (v ^ 2 / (2 * a)) -> slew_time s v a = s / v + v / a).
Proof.
  intros _ _ _. split; [reflexivity | split].
  - intros Hs. apply slew_time_triangular. exact Hs.
  - intros Hs. apply slew_time_trapezoidal. unfold d_acc. lra.
Qed.

Lemma slew_time_profiles_witness :
  slew_time 0.2 0.872 0.244 = 2 * sqrt (0.2 / 0.244).
Proof.
  apply (slew_time_profiles 0.2 0.872 0.244); lra.
Defined.

(** C7: for fixed [v > 0] and [a > 0], [slew_time] is non-decreasing in the
    separation, also when the two separations lie on either side of the
    crossover [2 d_acc], where the two profiles agree. *)
Theorem slew_time_monotone (s1 s2 v a : R) :
  0 < v -> 0 < a -> 0 <= s1 -> s1 <= s2 ->
  slew_time s1 v a <= slew_time s2 v a /\
  2 * sqrt (2 * d_acc v a / a) = 2 * d_acc v a / v + v / a.
Proof.
  intros Hv Ha H0 H12. split; [| apply crossover_agreement; assumption].
  destruct (Rle_dec s1 (2 * d_acc v a)) as [H1 | H1];
    destruct (Rle_dec s2 (2 * d_acc v a)) as [H2 | H2].
  - rewrite !slew_time_triangular by assumption.
    pose proof (sqrt_le_1_alt _ _ (div_le_compat s1 s2 a Ha H12)). lra.
  - rewrite (slew_time_triangular s1) by assumption.
    rewrite (slew_time_trapezoidal s2) by lra.
    pose proof (sqrt_le_1_alt _ _ (div_le_compat _ _ a Ha H1)) as Hsq.
    pose proof (crossover_agreement v a Hv Ha) as Hx.
    assert (2 * d_acc v a / v <= s2 / v) by (apply div_le_compat; lra).
    lra.
  - lra.
  - rewrite !slew_time_trapezoidal by lra.
    pose proof (div_le_compat s1 s2 v Hv H12). lra.
Qed.

Lemma slew_time_monotone_witness :
  slew_time 0.2 0.872 0.244 <= slew_time 90 0.872 0.244.
Proof.
  apply (slew_time_monotone 0.2 90 0.872 0.244); lra.
Defined.

(** ** Overhead *)

Section Overhead.

Context {Center : Type}.
Variable slew_separation : Center -> Center -> R.

Lemma Mission_overhead_unfold (m : Mission) (a b : Center) :
  Mission_overhead slew_separation m a b =
  Rmax (min_overhead m)
    (slew_time (slew_separation a b) (max_angular_velocity m)
       (max_angular_acceleration m)).
Proof. reflexivity. Qed.

(** C1: [Mission.overhead(a, b)] is the larger of the mission's
    [min_overhead] and the slew time over the separation of [a] and [b] under
    the mission's own velocity and acceleration limits; it is at least both
    and equal to one of them. *)
Theorem Mission_overhead_is_max (m : Mission) (a b : Center) :
  let t := slew_time (slew_separation a b) (max_angular_velocity m)
             (max_angular_acceleration m) in
  Mission_overhead slew_separation m a b = Rmax (min_overhead m) t /\
  min_overhead m <= Mission_overhead slew_separation m a b /\
  t <= Mission_overhead slew_separation m a b /\
  (Mission_overhead slew_separation m a b = min_overhead m \/
   Mission_overhead slew_separation m a b = t).
Proof.
  intros t. rewrite Mission_overhead_unfold. fold t.
  repeat split.
  - apply Rmax_l.
  - apply Rmax_r.
  - unfold Rmax. destruct (Rle_dec (min_overhead m) t); [right | left]; reflexivity.
Qed.


Hypothesis slew_separation_nonneg : forall a b, 0 <= slew_separation a b.

Lemma Mission_overhead_no_floor (m : Mission) (a b : Center) :
  min_overhead m = 0 ->
  0 < max_angular_velocity m ->
  0 < max_angular_acceleration m ->
  Mission_overhead slew_separation m a b =
  slew_time (slew_separation a b) (max_angular_velocity m)
    (max_angular_acceleration m).
Proof.
  intros H0 Hv Ha. rewrite Mission_overhead_unfold, H0.
  apply Rmax_right. apply slew_time_nonneg; auto.
Qed.

End Overhead.


Lemma sample_separation_nonneg (a b : sample_center) :
  0 <= sample_separation a b.
Proof.
  unfold sample_separation.
  pose proof (Rabs_pos (fst a - fst b)).
  pose proof (Rabs_pos (snd a - snd b)). lra.
Qed.



(** C9: [dorado], [ultrasat] and [uvex] are built with [min_overhead] equal
    to zero, and for them the overhead between any two centers is the slew
    time itself. *)
Theorem predefined_overhead_is_slew_time {Center : Type}
    (slew_separation : Center -> Center -> R)
    (slew_separation_nonneg : forall a b, 0 <= slew_separation a b)
    (a b : Center) :
  (min_overhead dorado = 0 /\ min_overhead ultrasat = 0 /\
   min_overhead uvex = 0) /\
  Mission_overhead slew_separation dorado a b =
    slew_time (slew_separation a b) (max_angular_velocity dorado)
      (max_angular_acceleration dorado) /\
  Mission_overhead slew_separation ultrasat a b =
    slew_time (slew_separation a b) (max_angular_velocity ultrasat)
      (max_angular_acceleration ultrasat) /\
  Mission_overhead slew_separation uvex a b =
    slew_time (slew_separation a b) (max_angular_velocity uvex)
      (max_angular_acceleration uvex).
Proof.
  split; [repeat split |].
  repeat split;
    apply Mission_overhead_no_floor; simpl; auto; lra.
Qed.

Lemma predefined_overhead_is_slew_time_witness :
  Mission_overhead sample_separation dorado (10, 20) (40, -30) =
  slew_time (sample_separation (10, 20) (40, -30))
    (max_angular_velocity dorado) (max_angular_acceleration dorado).
Proof.
  apply (predefined_overhead_is_slew_time sample_separation
           sample_separation_nonneg (10, 20) (40, -30)).
Defined.

(** ** Field of regard: delegation *)

Lemma Mission_get_field_of_regard_unfold {Args Grid : Type}
    (get_field_of_regard : Orbit -> list Constraint -> Args -> Grid)
    (m : Mission) (args : Args) :
  Mission_get_field_of_regard get_field_of_regard m args =
  get_field_of_regard (orbit m) (constraints m) args.
Proof. reflexivity. Qed.

(** C10: [Mission.get_field_of_regard(args)] returns what the module-level
    [get_field_of_regard] returns on the mission's orbit, its constraints and
    the same arguments. *)
Theorem Mission_get_field_of_regard_delegates {Args Grid : Type}
    (get_field_of_regard : Orbit -> list Constraint -> Args -> Grid)
    (m : Mission) (args : Args) :
  Mission_get_field_of_regard get_field_of_regard m args =
  get_field_of_regard (orbit m) (constraints m) args.
Proof. reflexivity. Qed.

(** ** Mutability *)

Lemma getattr_assign_same (m : Mission) (f : field) (v : field_type f) :
  getattr (assign m f v) f = v.
Proof. destruct f; reflexivity. Qed.

Lemma getattr_assign_other (m : Mission) (f g : field) (v : field_type f) :
  f <> g -> getattr (assign m f v) g = getattr m g.
Proof. intros Hfg. destruct f, g; try reflexivity; contradiction. Qed.

Lemma Mission_eta (m : Mission) :
  Build_Mission_record (constraints m) (fov m) (orbit m) (min_overhead m)
    (max_angular_velocity m) (max_angular_acceleration m) = m.
Proof. destruct m. reflexivity. Qed.

(** C3 as stated fails: the assignment [dorado.min_overhead = 1 * u.s] is
    accepted and changes the field. *)
Lemma Mission_immutable_counterexample :
  Mission_setattr dorado f_min_overhead 1 =
    inr (assign dorado f_min_overhead 1) /\
  min_overhead (assign dorado f_min_overhead 1) <> min_overhead dorado.
Proof.
  split; [reflexivity |]. simpl. lra.
Qed.

(** C3, amended: a [Mission] is a mutable record.  Assigning to a field after
    construction succeeds and stores the value, while the two exposed
    operations, [get_field_of_regard] and [overhead], leave every field as it
    was. *)
Theorem Mission_operations_preserve_fields {Args Grid Center : Type}
    (get_field_of_regard : Orbit -> list Constraint -> Args -> Grid)
    (slew_separation : Center -> Center -> R)
    (m : Mission) :
  (forall (f : field) (v : field_type f),
     Mission_setattr m f v = inr (assign m f v) /\
     getattr (assign m f v) f = v) /\
  (forall (args : Args) (f : field),
     getattr
       (final (Mission_get_field_of_regard_body get_field_of_regard args) m)
       f = getattr m f) /\
  (forall (a b : Center) (f : field),
     getattr (final (Mission_overhead_body slew_separation a b) m) f =
     getattr m f).
Proof.
  split; [| split].
  - intros f v. split; [reflexivity | apply getattr_assign_same].
  - intros args f. reflexivity.
  - intros a b f. reflexivity.
Qed.

(** ** Construction *)

Lemma dorado_invariant : Mission_invariant dorado.
Proof.
  unfold Mission_invariant; simpl.
  repeat split; try lra.
  repeat apply Forall_cons; try apply Forall_nil; simpl;
    unfold known_particle, known_solar; repeat split; auto; lra.
Qed.

Lemma ultrasat_invariant : Mission_invariant ultrasat.
Proof.
  unfold Mission_invariant; simpl.
  repeat split; try lra.
  repeat constructor; simpl; lra.
Qed.

Lemma uvex_invariant : Mission_invariant uvex.
Proof.
  unfold Mission_invariant; simpl.
  repeat split; try lra.
  repeat constructor; simpl; lra.
Qed.

(** C2 as stated fails: the constructor accepts a negative
    [max_angular_velocity], returns a mission and raises nothing, and that
    mission breaks the invariant. *)
Lemma Mission_init_counterexample :
  Mission_init (constraints uvex) (fov uvex) (orbit uvex) 0 (-0.872) 0.244 =
    inr negative_velocity_mission /\
  ~ Mission_invariant negative_velocity_mission.
Proof.
  split; [reflexivity |].
  unfold Mission_invariant; simpl. intros (_ & _ & _ & Hv & _). lra.
Qed.

(** C2, amended: constructing a [Mission] checks nothing: for all parameter
    values it succeeds and stores them as given, so the invariant is not
    established by construction; it holds for the three predefined missions
    [dorado], [ultrasat] and [uvex]. *)
Theorem Mission_init_stores_unchecked :
  (forall (cs : list Constraint) (f : FOV) (o : Orbit) (ovh vel acc : R),
     Mission_init cs f o ovh vel acc =
     inr (Build_Mission_record cs f o ovh vel acc)) /\
  Mission_invariant dorado /\
  Mission_invariant ultrasat /\
  Mission_invariant uvex.
Proof.
  split; [reflexivity |].
  split; [apply dorado_invariant |].
  split; [apply ultrasat_invariant | apply uvex_invariant].
Qed.

(** ** Grids *)

Lemma Rleb_true_iff (x y : R) : Rleb x y = true <-> x <= y.
Proof.
  unfold Rleb. destruct (Rle_dec x y) as [H | H]; split; intros; auto; discriminate.
Qed.

Lemma Rleb_false_iff (x y : R) : Rleb x y = false <-> y < x.
Proof.
  unfold Rleb. destruct (Rle_dec x y) as [H | H]; split; intros; auto;
    try discriminate; lra.
Qed.

Lemma zip_with_map {A B C D : Type} (f : B -> C -> D) (g : A -> B)
    (h : A -> C) (l : list A) :
  zip_with f (map g l) (map h l) = map (fun x => f (g x) (h x)) l.
Proof.
  induction l as [| x l IH]; simpl; [reflexivity | now rewrite IH].
Qed.

Lemma grid_of_ext {T D : Type} (f g : T -> D -> bool) (ts : list T)
    (ds : list D) :
  (forall t d, f t d = g t d) -> grid_of f ts ds = grid_of g ts ds.
Proof.
  intros Hfg. unfold grid_of. apply map_ext. intros t.
  apply map_ext. intros d. apply Hfg.
Qed.

Lemma grid_and_grid_of {T D : Type} (f g : T -> D -> bool) (ts : list T)
    (ds : list D) :
  grid_and (grid_of f ts ds) (grid_of g ts ds) =
  grid_of (fun t d => f t d && g t d) ts ds.
Proof.
  unfold grid_and, grid_of. rewrite zip_with_map.
  apply map_ext. intros t. apply zip_with_map.
Qed.

Lemma cell_grid_of {T D : Type} (f : T -> D -> bool) (ts : list T)
    (ds : list D) (i j : nat) (t : T) (d : D) :
  nth_error ts i = Some t -> nth_error ds j = Some d ->
  cell (grid_of f ts ds) i j = Some (f t d).
Proof.
  intros Ht Hd. unfold cell, grid_of.
  rewrite nth_error_map, Ht. simpl.
  rewrite nth_error_map, Hd. reflexivity.
Qed.

Lemma map_const_repeat {A B : Type} (b : B) (l : list A) :
  map (fun _ => b) l = repeat b (List.length l).
Proof.
  induction l as [| x l IH]; simpl; [reflexivity | now rewrite IH].
Qed.

Lemma forallb_Permutation {A : Type} (p : A -> bool) (l l' : list A) :
  Permutation l l' -> forallb p l = forallb p l'.
Proof.
  induction 1 as [| x l l' _ IH | x y l | l l' l'' _ IH1 _ IH2]; simpl.
  - reflexivity.
  - now rewrite IH.
  - now rewrite !andb_assoc, (andb_comm (p y) (p x)).
  - now rewrite IH1.
Qed.

Section FieldOfRegard.

Context {Time Direction Position : Type}.
Variable position : Orbit -> Time -> Position.
Variable get_flux : Position -> R -> string -> string -> R.
Variable geometry_permits :
  Constraint -> Position -> Time -> Direction -> bool.
Variable sky_grid : list Direction.

Lemma reduce_masks (o : Orbit) (times : list Time) (cs : list Constraint)
    (acc : Time -> Direction -> bool) :
  fold_left
    (fun g c =>
       grid_and g
         (Constraints.evaluate position get_flux geometry_permits c o times
            sky_grid))
    cs (grid_of acc times sky_grid) =
  grid_of
    (fun t d =>
       acc t d &&
       forallb
         (fun c =>
            Constraints.permits position get_flux geometry_permits c o t d)
         cs)
    times sky_grid.
Proof.
  revert acc. induction cs as [| c cs IH]; intros acc; simpl.
  - apply grid_of_ext. intros t d. now rewrite andb_true_r.
  - unfold Constraints.evaluate at 2. rewrite grid_and_grid_of, IH.
    apply grid_of_ext. intros t d. now rewrite andb_assoc.
Qed.

Lemma get_field_of_regard_cells (o : Orbit) (cs : list Constraint)
    (times : list Time) :
  Constraints.get_field_of_regard position get_flux geometry_permits sky_grid
    o cs times =
  grid_of
    (fun t d =>
       forallb
         (fun c =>
            Constraints.permits position get_flux geometry_permits c o t d)
         cs)
    times sky_grid.
Proof.
  unfold Constraints.get_field_of_regard.
  rewrite reduce_masks. apply grid_of_ext. intros t d. reflexivity.
Qed.

End FieldOfRegard.

(** The field of regard of [ultrasat], whose constraints are all geometric,
    on the sample sky at time steps 0 and 1. *)
Example sample_field_of_regard_ultrasat :
  Mission_get_field_of_regard sample_field_of_regard ultrasat [0; 1]%nat =
  [ [false; true; true; true]; [false; false; true; true] ].
Proof. reflexivity. Qed.

(** C6: replacing the mission's constraint list by a permutation of it
    leaves the grid returned by [get_field_of_regard] unchanged, and the cell
    at a time [t] and a direction [d] is [true] exactly when every constraint
    permits [d] at [t]. *)
Theorem field_of_regard_order_independent {Time Direction Position : Type}
    (position : Orbit -> Time -> Position)
    (get_flux : Position -> R -> string -> string -> R)
    (geometry_permits : Constraint -> Position -> Time -> Direction -> bool)
    (sky_grid : list Direction)
    (m : Mission) (cs' : list Constraint) (times : list Time) :
  Permutation (constraints m) cs' ->
  let field_of_regard :=
    Constraints.get_field_of_regard position get_flux geometry_permits
      sky_grid in
  let permits := Constraints.permits position get_flux geometry_permits in
  Mission_get_field_of_regard field_of_regard (assign m f_constraints cs')
    times =
  Mission_get_field_of_regard field_of_regard m times /\
  (forall (i j : nat) (t : Time) (d : Direction),
     nth_error times i = Some t -> nth_error sky_grid j = Some d ->
     exists b : bool,
       cell (Mission_get_field_of_regard field_of_regard m times) i j =
       Some b /\
       (b = true <->
        forall c, In c (constraints m) -> permits c (orbit m) t d = true)).
Proof.
  intros Hperm field_of_regard permits.
  rewrite !Mission_get_field_of_regard_unfold. simpl.
  unfold field_of_regard. rewrite !get_field_of_regard_cells. split.
  - apply grid_of_ext. intros t d. symmetry.
    apply forallb_Permutation. exact Hperm.
  - intros i j t d Ht Hd.
    exists (forallb (fun c => permits c (orbit m) t d) (constraints m)).
    split.
    + apply (cell_grid_of
               (fun t d =>
                  forallb (fun c => permits c (orbit m) t d) (constraints m))
               times sky_grid i j t d Ht Hd).
    + apply forallb_forall.
Qed.

Lemma field_of_regard_order_independent_witness :
  Mission_get_field_of_regard sample_field_of_regard
    (assign dorado f_constraints (rev (constraints dorado))) [0; 1; 2]%nat =
  Mission_get_field_of_regard sample_field_of_regard dorado [0; 1; 2]%nat.
Proof.
  exact (proj1 (field_of_regard_order_independent sample_position
                  sample_flux sample_geometry sample_sky dorado
                  (rev (constraints dorado)) [0; 1; 2]%nat
                  (Permutation_rev (constraints dorado)))).
Defined.

(** C8: at a time step, [TrappedParticleFluxConstraint] gives the same value
    for every sky direction: all directions are forbidden when the modelled
    flux at the spacecraft position exceeds the threshold, and all are
    permitted otherwise; each row of its mask is constant. *)
Theorem trapped_particle_flux_direction_independent
    {Time Direction Position : Type}
    (position : Orbit -> Time -> Position)
    (get_flux : Position -> R -> string -> string -> R)
    (geometry_permits : Constraint -> Position -> Time -> Direction -> bool)
    (flux energy : R) (particle solar : string) (o : Orbit) :
  let c := TrappedParticleFluxConstraint flux energy particle solar in
  let permits := Constraints.permits position get_flux geometry_permits in
  let modelled t := get_flux (position o t) energy particle solar in
  (forall (t : Time) (d d' : Direction), permits c o t d = permits c o t d') /\
  (forall (t : Time) (d : Direction),
     permits c o t d = false <-> flux < modelled t) /\
  (forall (t : Time) (d : Direction),
     permits c o t d = true <-> modelled t <= flux) /\
  (forall (times : list Time) (directions : list Direction),
     Constraints.evaluate position get_flux geometry_permits c o times
       directions =
     map (fun t => repeat (Rleb (modelled t) flux) (List.length directions))
       times).
Proof.
  intros c permits modelled. split; [| split; [| split]].
  - intros t d d'. reflexivity.
  - intros t d. apply Rleb_false_iff.
  - intros t d. apply Rleb_true_iff.
  - intros times directions.
    unfold Constraints.evaluate, grid_of. apply map_ext. intros t.
    exact (map_const_repeat (Rleb (modelled t) flux) directions).
Qed.

(** * Properties of the animation script *)

Section Frames.

Local Open Scope nat_scope.

Lemma every_nth_from_seq (k : nat) :
  1 <= k ->
  forall n a s, s < k ->
  exists c,
    AnimateSurvey.every_nth_from k s (seq a n) =
      map (fun i => a + s + i * k) (seq 0 c) /\
    (n <= s -> c = 0) /\
    (s < n -> 1 <= c /\ (c - 1) * k + s < n /\ n <= c * k + s).
Proof.
  intros Hk. induction n as [| n IH]; intros a s Hs.
  - exists 0. simpl. repeat split; lia.
  - simpl. destruct s as [| s'].
    + destruct (IH (S a) (k - 1)) as (c & Heq & Hsmall & Hbig); [lia |].
      exists (S c). split; [| split].
      * rewrite Heq. simpl. f_equal; [lia |].
        rewrite <- seq_shift, map_map. apply map_ext. intros i. lia.
      * lia.
      * intros _. destruct (le_lt_dec n (k - 1)) as [Hn | Hn].
        -- rewrite (Hsmall Hn). simpl. lia.
        -- destruct (Hbig Hn) as (Hc & Hlo & Hhi).
           replace (S c - 1) with (S (c - 1)) by lia. simpl. nia.
    + destruct (IH (S a) s') as (c & Heq & Hsmall & Hbig); [lia |].
      exists c. split; [| split].
      * rewrite Heq. apply map_ext. intros i. lia.
      * intros Hn. apply Hsmall. lia.
      * intros Hn. destruct (Hbig ltac:(lia)) as (Hc & Hlo & Hhi). lia.
Qed.

Lemma frames_run (n : nat) (nframes : Z) :
  (0 < nframes)%Z -> (nframes <= Z.of_nat n)%Z ->
  let k := n / Z.to_nat nframes in
  AnimateSurvey.frames n nframes =
    inr (AnimateSurvey.every_nth_from k 0 (seq 0 n)) /\
  1 <= k /\ k * Z.to_nat nframes <= n.
Proof.
  intros Hpos Hle k.
  assert (Hk : 1 <= k).
  { unfold k. apply Nat.div_le_lower_bound; lia. }
  assert (Hq : Z.quot (Z.of_nat n) nframes = Z.of_nat k).
  { rewrite Z.quot_div_nonneg by lia. unfold k.
    rewrite Nat2Z.inj_div, Z2Nat.id by lia. reflexivity. }
  split; [| split; [exact Hk |]].
  - unfold AnimateSurvey.frames, AnimateSurvey.nslice,
      AnimateSurvey.float_div_int.
    destruct (Z.eqb_spec nframes 0) as [H0 | _]; [lia |].
    rewrite Hq.
    destruct (Z.eqb_spec (Z.of_nat k) 0) as [H0 | _]; [lia |].
    unfold AnimateSurvey.slice_step.
    destruct (Z.eqb_spec (Z.of_nat k) 0) as [H0 | _]; [lia |].
    destruct (Z.ltb_spec 0 (Z.of_nat k)) as [_ | H0]; [| lia].
    rewrite Nat2Z.id. reflexivity.
  - unfold k. rewrite Nat.mul_comm. apply Nat.Div0.mul_div_le.
Qed.

(** X1: with [0 < nframes <= len(field_of_regard)] the frames are the
    multiples [0, k, 2k, ...] of [k = len // nframes] below the length;
    there are at least [nframes] of them, and their number [c] is the least
    with [len <= c * k]. *)
Theorem frames_evenly_spaced (n : nat) (nframes : Z) :
  (0 < nframes)%Z -> (nframes <= Z.of_nat n)%Z ->
  let k := n / Z.to_nat nframes in
  exists c,
    AnimateSurvey.frames n nframes = inr (map (fun i => i * k) (seq 0 c)) /\
    1 <= k /\
    Z.to_nat nframes <= c /\
    (c - 1) * k < n /\ n <= c * k.
Proof.
  intros Hpos Hle k.
  destruct (frames_run n nframes Hpos Hle) as (Hrun & Hk & Hkf).
  fold k in Hrun, Hk, Hkf.
  destruct (every_nth_from_seq k Hk n 0 0 ltac:(lia))
    as (c & Heq & _ & Hbig).
  destruct (Hbig ltac:(lia)) as (Hc & Hlo & Hhi).
  exists c. rewrite Hrun, Heq.
  split; [f_equal; apply map_ext; intros i; lia |].
  split; [exact Hk |]. split; [nia | lia].
Qed.

Lemma frames_evenly_spaced_witness :
  exists c,
    AnimateSurvey.frames 250 100 = inr (map (fun i => i * 2) (seq 0 c)) /\
    1 <= 2 /\ Z.to_nat 100 <= c /\ (c - 1) * 2 < 250 /\ 250 <= c * 2.
Proof.
  apply (frames_evenly_spaced 250 100); lia.
Defined.

(** X2: for a number of time steps below [2^53] and an [nframes] that
    [float] converts ([|nframes| < 2^1024 - 2^970]), frame selection fails
    exactly when [nframes] is zero or exceeds the number of time steps in
    absolute value, and then with a [ZeroDivisionError]; the zero slice step
    is never reached. *)
Theorem frames_error (n : nat) (nframes : Z) (e : exception) :
  (Z.of_nat n < AnimateSurvey.float_exact)%Z ->
  (Z.abs nframes < AnimateSurvey.float_overflow)%Z ->
  (AnimateSurvey.frames n nframes = inl e <->
   e = ZeroDivisionError /\
   (nframes = 0%Z \/ (Z.of_nat n < Z.abs nframes)%Z)).
Proof.
  intros _ _.
  unfold AnimateSurvey.frames, AnimateSurvey.nslice,
    AnimateSurvey.float_div_int.
  destruct (Z.eqb_spec nframes 0) as [H0 | H0].
  - split.
    + intros H. injection H as <-. auto.
    + intros [-> _]. reflexivity.
  - destruct (Z.eqb_spec (Z.quot (Z.of_nat n) nframes) 0) as [Hq | Hq].
    + apply Z.quot_small_iff in Hq; [| exact H0].
      split.
      * intros H. injection H as <-. split; [reflexivity | right; lia].
      * intros [-> _]. reflexivity.
    + unfold AnimateSurvey.slice_step.
      destruct (Z.eqb_spec (Z.quot (Z.of_nat n) nframes) 0) as [| _];
        [contradiction |].
      assert (Hns : ~ (Z.abs (Z.of_nat n) < Z.abs nframes)%Z).
      { intros Hlt. apply Hq. apply Z.quot_small_iff; assumption. }
      split.
      * destruct (0 <? Z.quot (Z.of_nat n) nframes)%Z; discriminate.
      * intros [_ [H | H]]; [contradiction | lia].
Qed.

Lemma frames_error_witness :
  AnimateSurvey.frames 10 100 = inl ZeroDivisionError <->
  ZeroDivisionError = ZeroDivisionError /\
  (100%Z = 0%Z \/ (Z.of_nat 10 < Z.abs 100)%Z).
Proof.
  apply (frames_error 10 100 ZeroDivisionError); reflexivity.
Defined.

End Frames.

Section Coverage.

Import AnimateSurvey.
Local Open Scope nat_scope.

Lemma insert_unique_In (x y : nat) (l : list nat) :
  In y (insert_unique x l) <-> y = x \/ In y l.
Proof.
  induction l as [| z l IH]; simpl.
  - intuition.
  - destruct (Nat.ltb_spec x z) as [Hlt | Hge]; simpl.
    + intuition.
    + destruct (Nat.eqb_spec x z) as [-> | Hne]; simpl.
      * intuition.
      * rewrite IH. intuition.
Qed.

Lemma insert_unique_sorted (x : nat) (l : list nat) :
  StronglySorted lt l -> StronglySorted lt (insert_unique x l).
Proof.
  induction 1 as [| z l Hs IH Hz]; simpl.
  - repeat constructor.
  - destruct (Nat.ltb_spec x z) as [Hlt | Hge].
    + constructor; [constructor; assumption |].
      constructor; [exact Hlt |].
      eapply Forall_impl; [| exact Hz]. intros a Ha. simpl in Ha. lia.
    + destruct (Nat.eqb_spec x z) as [-> | Hne].
      * constructor; assumption.
      * constructor; [exact IH |].
        apply Forall_forall. intros a Ha.
        apply insert_unique_In in Ha. destruct Ha as [-> | Ha]; [lia |].
        rewrite Forall_forall in Hz. apply Hz. exact Ha.
Qed.

Lemma np_unique_In (y : nat) (l : list nat) :
  In y (np_unique l) <-> In y l.
Proof.
  induction l as [| x l IH]; simpl; [reflexivity |].
  rewrite insert_unique_In, IH. intuition.
Qed.

Lemma np_unique_sorted (l : list nat) : StronglySorted lt (np_unique l).
Proof.
  induction l as [| x l IH]; simpl.
  - constructor.
  - apply insert_unique_sorted. exact IH.
Qed.

Lemma sorted_NoDup (l : list nat) : StronglySorted lt l -> NoDup l.
Proof.
  induction 1 as [| x l _ IH Hx]; constructor; [| exact IH].
  intros Hin. rewrite Forall_forall in Hx. specialize (Hx x Hin). lia.
Qed.

(** Two strictly increasing lists with the same elements are equal. *)
Lemma sorted_ext (l l' : list nat) :
  StronglySorted lt l -> StronglySorted lt l' ->
  (forall x, In x l <-> In x l') -> l = l'.
Proof.
  intros Hl. revert l'.
  induction Hl as [| x l Hs IH Hx]; intros l' Hl' Hiff.
  - destruct l' as [| y l']; [reflexivity |].
    exfalso. apply (proj2 (Hiff y)). left. reflexivity.
  - destruct Hl' as [| y l' Hs' Hy].
    + exfalso. apply (proj1 (Hiff x)). left. reflexivity.
    + rewrite Forall_forall in Hx, Hy.
      assert (Hxy : x = y).
      { destruct (proj1 (Hiff x) (or_introl eq_refl)) as [Heq | Hin];
          [auto |].
        destruct (proj2 (Hiff y) (or_introl eq_refl)) as [Heq | Hin'];
          [auto |].
        specialize (Hx y Hin'). specialize (Hy x Hin). lia. }
      subst y. f_equal. apply IH; [exact Hs' |].
      intros z. split; intros Hz.
      * destruct (proj1 (Hiff z) (or_intror Hz)) as [Heq | Hin]; [| exact Hin].
        subst z. specialize (Hx x Hz). lia.
      * destruct (proj2 (Hiff z) (or_intror Hz)) as [Heq | Hin]; [| exact Hin].
        subst z. specialize (Hy x Hz). lia.
Qed.

Lemma np_unique_app_l (l m : list nat) :
  np_unique (np_unique l ++ m) = np_unique (l ++ m).
Proof.
  apply sorted_ext; try apply np_unique_sorted.
  intros x. rewrite !np_unique_In, !in_app_iff, np_unique_In. reflexivity.
Qed.

Lemma take_in_range (a : list R) (indices : list nat) :
  (forall i, In i indices -> i < List.length a) ->
  take a indices = inr (map (fun i => nth i a 0%R) indices).
Proof.
  induction indices as [| i rest IH]; intros Hr; simpl; [reflexivity |].
  assert (Hi : i < List.length a) by (apply Hr; left; reflexivity).
  rewrite (nth_error_nth' a 0%R Hi).
  rewrite IH by (intros j Hj; apply Hr; right; exact Hj).
  reflexivity.
Qed.

Lemma take_out_of_range (a : list R) (indices : list nat) (i : nat) :
  In i indices -> List.length a <= i -> take a indices = inl IndexError.
Proof.
  intros Hin Hi. induction indices as [| j rest IH]; [contradiction |].
  simpl. destruct (nth_error a j) as [v |] eqn:Hj; [| reflexivity].
  destruct Hin as [-> | Hin].
  - assert (Hlt : i < List.length a) by (apply nth_error_Some; congruence).
    lia.
  - rewrite (IH Hin). reflexivity.
Qed.

Lemma np_sum_nonneg (l : list R) : Forall (Rle 0) l -> (0 <= np_sum l)%R.
Proof.
  induction 1 as [| x l Hx _ IH]; simpl; lra.
Qed.

(** Over non-negative values, a list without repetition sums to no more
    than any list that contains its elements. *)
Lemma np_sum_incl (f : nat -> R) (l l' : list nat) :
  (forall i, (0 <= f i)%R) -> NoDup l -> incl l l' ->
  (np_sum (map f l) <= np_sum (map f l'))%R.
Proof.
  intros Hf Hnd. revert l'.
  induction Hnd as [| x l Hx _ IH]; intros l' Hincl; simpl.
  - apply np_sum_nonneg. apply Forall_forall. intros v Hv.
    apply in_map_iff in Hv. destruct Hv as (i & <- & _). apply Hf.
  - destruct (in_split x l' (Hincl x (or_introl eq_refl)))
      as (l1 & l2 & ->).
    assert (Hrest : incl l (l1 ++ l2)).
    { intros y Hy. specialize (Hincl y (or_intror Hy)).
      apply in_app_iff in Hincl. apply in_app_iff.
      destruct Hincl as [H1 | [Heq | H2]]; auto.
      subst y. contradiction. }
    specialize (IH _ Hrest).
    rewrite map_app in *. simpl.
    assert (Happ : forall u v, np_sum (u ++ v) = (np_sum u + np_sum v)%R).
    { intros u v. induction u as [| a u IHu]; simpl; [lra | rewrite IHu; lra]. }
    rewrite Happ in *. simpl. lra.
Qed.

End Coverage.

Section IntegratedProbability.

Import AnimateSurvey.
Local Open Scope nat_scope.

Context {Center : Type}.
Variable get_footprint_healpix : Center -> list nat.
Variable skymap_prob : list R.

(** The pixels covered by the footprints of some rows, in [np.unique]
    order, and the probability they hold. *)
Local Abbreviation covered rows :=
  (np_unique (flat_map (fun r => get_footprint_healpix (center r)) rows)).
Local Abbreviation probability indices :=
  (np_sum (map (fun i => nth i skymap_prob 0%R) indices)).

Lemma take_inl (indices : list nat) (e : exception) :
  take skymap_prob indices = inl e ->
  e = IndexError /\
  exists i, In i indices /\ List.length skymap_prob <= i.
Proof.
  revert e. induction indices as [| i rest IH]; intros e; simpl;
    [discriminate |].
  destruct (nth_error skymap_prob i) as [v |] eqn:Hi.
  - destruct (take skymap_prob rest) as [e' | vs]; [| discriminate].
    intros H. injection H as <-.
    destruct (IH e' eq_refl) as (-> & j & Hj & Hlen).
    split; [reflexivity |]. exists j. auto.
  - intros H. injection H as <-. split; [reflexivity |].
    exists i. split; [left; reflexivity |].
    apply nth_error_None. exact Hi.
Qed.

Lemma take_inr (indices : list nat) (values : list R) :
  take skymap_prob indices = inr values ->
  forall i, In i indices -> i < List.length skymap_prob.
Proof.
  intros Hv i Hin.
  destruct (le_lt_dec (List.length skymap_prob) i) as [Hle | Hlt];
    [| exact Hlt].
  rewrite (take_out_of_range _ _ i Hin Hle) in Hv. discriminate.
Qed.

Lemma coverage_loop_closed_form (rest pre : list (row Center))
    (prob : list R) :
  (forall r i, In r (pre ++ rest)%list ->
     In i (get_footprint_healpix (center r)) ->
     i < List.length skymap_prob) ->
  coverage_loop get_footprint_healpix skymap_prob rest (covered pre, prob) =
  inr (covered (pre ++ rest)%list,
       (prob ++
        map (fun j => (100 * probability (covered (pre ++ firstn (S j) rest)%list))%R)
          (seq 0 (List.length rest)))%list).
Proof.
  revert pre prob. induction rest as [| r rest IH]; intros pre prob Hr.
  - simpl. rewrite !app_nil_r. reflexivity.
  - simpl coverage_loop. unfold coverage_step.
    rewrite np_unique_app_l.
    assert (Hpre : (flat_map (fun r => get_footprint_healpix (center r)) pre
                    ++ get_footprint_healpix (center r))%list =
                   flat_map (fun r => get_footprint_healpix (center r))
                     (pre ++ [r])%list).
    { rewrite flat_map_app. simpl. rewrite app_nil_r. reflexivity. }
    rewrite Hpre.
    rewrite take_in_range.
    + rewrite IH.
      * rewrite <- !app_assoc. simpl. f_equal. f_equal. f_equal. f_equal.
        rewrite <- seq_shift, map_map. apply map_ext. intros j.
        rewrite <- app_assoc. reflexivity.
      * intros r' i Hin. apply Hr. rewrite <- app_assoc in Hin. exact Hin.
    + intros i Hi. apply (proj1 (np_unique_In _ _)) in Hi.
      apply in_flat_map in Hi.
      destruct Hi as (r' & Hr' & Hi). apply (Hr r' i); [| exact Hi].
      apply in_app_iff in Hr'. apply in_app_iff.
      destruct Hr' as [H | [<- | []]]; [left; exact H | right; left; reflexivity].
Qed.

(** X3: when every footprint pixel is a valid index into the sky map, the
    loop ends with [indices] equal to the sorted, duplicate-free union of
    all footprints, and [prob] holds one entry per row: 100 times the sky-map
    sum over the union of the footprints up to and including that row. *)
Theorem integrated_probability_closed_form (schedule : list (row Center)) :
  (forall r i, In r schedule ->
     In i (get_footprint_healpix (center r)) ->
     i < List.length skymap_prob) ->
  integrated_probability get_footprint_healpix skymap_prob schedule =
  inr (covered schedule,
       map (fun j => (100 * probability (covered (firstn (S j) schedule)))%R)
         (seq 0 (List.length schedule))).
Proof.
  intros Hr. unfold integrated_probability.
  exact (coverage_loop_closed_form schedule [] [] Hr).
Qed.

Lemma coverage_loop_inl (schedule : list (row Center))
    (indices : list nat) (prob : list R) (e : exception) :
  (forall i, In i indices -> i < List.length skymap_prob) ->
  coverage_loop get_footprint_healpix skymap_prob schedule (indices, prob) =
    inl e ->
  e = IndexError /\
  exists r i, In r schedule /\ In i (get_footprint_healpix (center r)) /\
    List.length skymap_prob <= i.
Proof.
  revert indices prob. induction schedule as [| r rest IH];
    intros indices prob Hin; simpl; [discriminate |].
  destruct (take skymap_prob
              (np_unique (indices ++ get_footprint_healpix (center r))%list))
    as [e' | values] eqn:Htake.
  - intros H. injection H as <-.
    destruct (take_inl _ _ Htake) as (-> & i & Hi & Hlen).
    split; [reflexivity |].
    apply (proj1 (np_unique_In _ _)) in Hi. apply in_app_iff in Hi.
    destruct Hi as [Hi | Hi].
    + specialize (Hin i Hi). lia.
    + exists r, i. auto.
  - intros H. apply IH in H.
    + destruct H as (-> & r' & i & Hr' & Hi & Hlen).
      split; [reflexivity |]. exists r', i. auto.
    + exact (take_inr _ _ Htake).
Qed.

(** X5: the loop fails exactly when some footprint contains a pixel index
    past the end of the sky map, and then with an [IndexError]. *)
Theorem integrated_probability_error (schedule : list (row Center))
    (e : exception) :
  integrated_probability get_footprint_healpix skymap_prob schedule = inl e
  <->
  e = IndexError /\
  exists r i, In r schedule /\ In i (get_footprint_healpix (center r)) /\
    List.length skymap_prob <= i.
Proof.
  split.
  - apply coverage_loop_inl. intros i [].
  - intros (-> & r & i & Hr & Hi & Hlen).
    destruct (integrated_probability get_footprint_healpix skymap_prob
                schedule) as [e | [indices prob]] eqn:Hrun.
    + apply coverage_loop_inl in Hrun; [| intros j []].
      destruct Hrun as (-> & _). reflexivity.
    + exfalso. unfold integrated_probability in Hrun.
      assert (Hall : forall (rows : list (row Center)) st st',
                coverage_loop get_footprint_healpix skymap_prob rows st =
                  inr st' ->
                forall r i, In r rows ->
                  In i (get_footprint_healpix (center r)) ->
                  i < List.length skymap_prob).
      { induction rows as [| r0 rows IHrows]; intros st st' Hst r' i' Hr' Hi';
          [contradiction |].
        simpl in Hst. destruct st as [ix pb]. unfold coverage_step in Hst.
        destruct (take skymap_prob
                    (np_unique (ix ++ get_footprint_healpix (center r0))%list))
          as [e' | values] eqn:Htake; [discriminate |].
        destruct Hr' as [<- | Hr'].
        - apply (take_inr _ _ Htake). apply (proj2 (np_unique_In _ _)).
          apply in_app_iff. right. exact Hi'.
        - exact (IHrows _ _ Hst r' i' Hr' Hi'). }
      specialize (Hall _ _ _ Hrun r i Hr Hi). lia.
Qed.

End IntegratedProbability.

Lemma sample_schedule_in_range (r : row nat) (i : nat) :
  In r sample_schedule -> In i (sample_footprint (center r)) ->
  (i < List.length sample_skymap)%nat.
Proof.
  intros [<- | [<- | [<- | [<- | []]]]]; simpl;
    intros [<- | [<- | []]]; lia.
Qed.

Lemma sample_skymap_nonneg : Forall (Rle 0) sample_skymap.
Proof. repeat constructor; lra. Qed.

Lemma integrated_probability_closed_form_witness :
  AnimateSurvey.integrated_probability sample_footprint sample_skymap
    sample_schedule =
  inr ([0; 1; 2; 3]%nat,
       [ 100 * (0.2 + (0.3 + 0));
         100 * (0.1 + (0.2 + (0.3 + 0)));
         100 * (0.1 + (0.2 + (0.3 + (0.4 + 0))));
         100 * (0.1 + (0.2 + (0.3 + (0.4 + 0)))) ]).
Proof.
  exact (integrated_probability_closed_form sample_footprint sample_skymap
           sample_schedule sample_schedule_in_range).
Defined.

Section IntegratedProbabilityOrder.

Import AnimateSurvey.
Local Open Scope nat_scope.

Context {Center : Type}.
Variable get_footprint_healpix : Center -> list nat.
Variable skymap_prob : list R.

Lemma firstn_incl_le {A : Type} (l : list A) (j j' : nat) :
  j <= j' -> incl (firstn j l) (firstn j' l).
Proof.
  revert j j'. induction l as [| x l IH]; intros j j' Hle.
  - rewrite !firstn_nil. intros y [].
  - destruct j as [| j]; [intros y [] |].
    destruct j' as [| j']; [lia |].
    simpl. intros y [<- | Hy]; [left; reflexivity | right].
    apply (IH j j'); [lia | exact Hy].
Qed.

Lemma map_nth_seq (a : list R) :
  map (fun i => nth i a 0%R) (seq 0 (List.length a)) = a.
Proof.
  induction a as [| x a IH]; simpl; [reflexivity |].
  f_equal. rewrite <- seq_shift, map_map. exact IH.
Qed.

Lemma nth_nonneg (i : nat) :
  Forall (Rle 0) skymap_prob -> (0 <= nth i skymap_prob 0)%R.
Proof.
  intros Hnn.
  destruct (le_lt_dec (List.length skymap_prob) i) as [Hle | Hlt].
  - rewrite nth_overflow by exact Hle. lra.
  - rewrite Forall_forall in Hnn. apply Hnn. apply nth_In. exact Hlt.
Qed.

Lemma sorted_map_seq (F : nat -> R) (a n : nat) :
  (forall j j', j <= j' -> (F j <= F j')%R) ->
  StronglySorted Rle (map F (seq a n)).
Proof.
  intros Hmono. revert a. induction n as [| n IH]; intros a; simpl.
  - constructor.
  - constructor; [apply IH |].
    apply Forall_forall. intros y Hy. apply in_map_iff in Hy.
    destruct Hy as (j & <- & Hj). apply in_seq in Hj.
    apply Hmono. lia.
Qed.

(** X4: over a sky map without negative entries, and with every footprint
    pixel a valid index, [prob] has one entry per row, never decreases from
    one row to the next, and stays between 0 and 100 times the sum of the
    whole map. *)
Theorem integrated_probability_monotone (schedule : list (row Center)) :
  Forall (Rle 0) skymap_prob ->
  (forall r i, In r schedule ->
     In i (get_footprint_healpix (center r)) ->
     i < List.length skymap_prob) ->
  exists indices prob,
    integrated_probability get_footprint_healpix skymap_prob schedule =
      inr (indices, prob) /\
    List.length prob = List.length schedule /\
    StronglySorted Rle prob /\
    Forall (fun p => (0 <= p <= 100 * np_sum skymap_prob)%R) prob.
Proof.
  intros Hnn Hr.
  pose proof (nth_nonneg) as Hnth.
  eexists. eexists. split.
  { unfold integrated_probability.
    exact (coverage_loop_closed_form get_footprint_healpix skymap_prob
             schedule [] [] Hr). }
  cbn [app].
  split; [rewrite length_map, length_seq; reflexivity |].
  split.
  - apply sorted_map_seq. intros j j' Hle.
    apply Rmult_le_compat_l; [lra |].
    apply np_sum_incl.
    + intros i. apply Hnth. exact Hnn.
    + apply sorted_NoDup, np_unique_sorted.
    + intros x Hx. apply (proj1 (np_unique_In _ _)) in Hx.
      apply (proj2 (np_unique_In _ _)).
      apply in_flat_map in Hx. destruct Hx as (r & Hrin & Hx).
      apply in_flat_map. exists r. split; [| exact Hx].
      apply (firstn_incl_le schedule (S j) (S j')); [lia | exact Hrin].
  - apply Forall_forall. intros p Hp. apply in_map_iff in Hp.
    destruct Hp as (j & <- & _). split.
    + apply Rmult_le_pos; [lra |]. apply np_sum_nonneg.
      apply Forall_forall. intros v Hv. apply in_map_iff in Hv.
      destruct Hv as (i & <- & _). apply Hnth. exact Hnn.
    + apply Rmult_le_compat_l; [lra |].
      assert (Hall : np_sum skymap_prob =
                     np_sum (map (fun i => nth i skymap_prob 0%R)
                               (seq 0 (List.length skymap_prob))))
        by (rewrite map_nth_seq; reflexivity).
      rewrite Hall. apply np_sum_incl.
      * intros i. apply Hnth. exact Hnn.
      * apply sorted_NoDup, np_unique_sorted.
      * intros x Hx. apply (proj1 (np_unique_In _ _)) in Hx.
        apply in_flat_map in Hx. destruct Hx as (r & Hrin & Hx).
        apply in_seq. split; [lia |]. simpl. apply (Hr r x); [| exact Hx].
        apply (firstn_incl_le schedule (S j) (S j + List.length schedule))
          in Hrin; [| lia].
        rewrite firstn_all2 in Hrin by lia. exact Hrin.
Qed.

End IntegratedProbabilityOrder.

Lemma integrated_probability_monotone_witness :
  exists indices prob,
    AnimateSurvey.integrated_probability sample_footprint sample_skymap
      sample_schedule = inr (indices, prob) /\
    List.length prob = List.length sample_schedule /\
    StronglySorted Rle prob /\
    Forall (fun p => 0 <= p <= 100 * AnimateSurvey.np_sum sample_skymap) prob.
Proof.
  exact (integrated_probability_monotone sample_footprint sample_skymap
           sample_schedule sample_skymap_nonneg sample_schedule_in_range).
Defined.

Section SkymapsPerRow.

Import AnimateSurvey.
Local Open Scope nat_scope.

Context {Center Skymap Cls : Type}.
Variable load_skymap : string -> Skymap.
Variable load_cls : string -> Cls.

Lemma dict_get_set {V : Type} (d : dict V) (k k' : string) (v : V) :
  dict_get (dict_set d k v) k' =
  if String.eqb k' k then Some v else dict_get d k'.
Proof.
  induction d as [| [k0 v0] d IH]; simpl.
  - reflexivity.
  - destruct (String.eqb_spec k k0) as [-> | Hk]; simpl.
    + destruct (String.eqb_spec k' k0); reflexivity.
    + destruct (String.eqb_spec k' k0) as [-> | Hk'].
      * destruct (String.eqb_spec k0 k); [congruence | reflexivity].
      * exact IH.
Qed.

Lemma find_app_case {A : Type} (p : A -> bool) (l l' : list A) :
  find p (l ++ l') =
  match find p l with
  | Some x => Some x
  | None => find p l'
  end.
Proof.
  induction l as [| x l IH]; simpl; [reflexivity |].
  destruct (p x); [reflexivity | exact IH].
Qed.

Lemma skymaps_step_ok (seen rest : list (row Center)) (r : row Center)
    (st : skymaps_state Skymap Cls) :
  skymaps_invariant load_skymap load_cls seen st ->
  exists st',
    skymaps_step load_skymap load_cls st r = inr st' /\
    skymaps_invariant load_skymap load_cls (seen ++ [r]) st' /\
    skymaps st' =
      (skymaps st ++
       [load_skymap (skymap (skymap_source (seen ++ r :: rest) r))])%list /\
    clss st' =
      (clss st ++
       [load_cls (skymap (skymap_source (seen ++ r :: rest) r))])%list.
Proof.
  intros Hinv. unfold skymaps_step, skymap_source.
  destruct (String.eqb_spec (survey r) "GW") as [Hgw | Hgw].
  - rewrite orb_true_r. simpl. rewrite !dict_get_set, String.eqb_refl.
    eexists. split; [reflexivity |]. simpl. split; [| split; reflexivity].
    intros s Hs. simpl. rewrite !dict_get_set, !find_app_case. simpl.
    rewrite Hgw.
    destruct (String.eqb_spec s "GW") as [| _]; [contradiction |].
    destruct (Hinv s Hs) as [H1 H2]. rewrite H1, H2.
    destruct (find (fun r' => String.eqb s (survey r')) seen); split; reflexivity.
  - rewrite orb_false_r. unfold dict_mem.
    destruct (Hinv (survey r) Hgw) as [H1 H2].
    rewrite find_app_case. simpl. rewrite String.eqb_refl.
    destruct (find (fun r' => String.eqb (survey r) (survey r')) seen)
      as [r0 |] eqn:Hfind.
    + rewrite H1. simpl. rewrite H1, H2. simpl.
      eexists. split; [reflexivity |]. simpl. split; [| split; reflexivity].
      intros s Hs. simpl. destruct (Hinv s Hs) as [G1 G2].
      rewrite G1, G2, find_app_case. simpl.
      destruct (find (fun r' => String.eqb s (survey r')) seen) eqn:Hs';
        [split; reflexivity |].
      destruct (String.eqb_spec s (survey r)) as [-> | _];
        [congruence | split; reflexivity].
    + rewrite H1. simpl. rewrite !dict_get_set, String.eqb_refl.
      eexists. split; [reflexivity |]. simpl. split; [| split; reflexivity].
      intros s Hs. simpl. rewrite !dict_get_set, find_app_case. simpl.
      destruct (Hinv s Hs) as [G1 G2].
      destruct (String.eqb_spec s (survey r)) as [-> | Hne].
      * rewrite Hfind. split; reflexivity.
      * rewrite G1, G2.
        destruct (find (fun r' => String.eqb s (survey r')) seen);
          split; reflexivity.
Qed.

Lemma skymaps_loop_ok (rest seen : list (row Center))
    (st : skymaps_state Skymap Cls) :
  skymaps_invariant load_skymap load_cls seen st ->
  exists st',
    skymaps_loop load_skymap load_cls rest st = inr st' /\
    skymaps st' =
      (skymaps st ++
       map (fun r => load_skymap (skymap (skymap_source (seen ++ rest) r)))
         rest)%list /\
    clss st' =
      (clss st ++
       map (fun r => load_cls (skymap (skymap_source (seen ++ rest) r)))
         rest)%list.
Proof.
  revert seen st. induction rest as [| r rest IH]; intros seen st Hinv.
  - exists st. simpl. rewrite !app_nil_r. auto.
  - destruct (skymaps_step_ok seen rest r st Hinv)
      as (st1 & Hstep & Hinv1 & Hm & Hc).
    destruct (IH (seen ++ [r])%list st1 Hinv1) as (st' & Hloop & Hm' & Hc').
    exists st'. simpl. rewrite Hstep. split; [exact Hloop |].
    rewrite Hm', Hc', Hm, Hc. rewrite <- !app_assoc. simpl. auto.
Qed.

(** X6: the loop never raises [KeyError]; it gives every row a sky map and
    credible levels.  A row of the survey ["GW"] gets those of its own file;
    a row of any other survey gets those of the file named by the first row
    of that survey, whatever its own [skymap] column says. *)
Theorem skymaps_per_row (schedule : list (row Center)) :
  exists st,
    skymaps_loop load_skymap load_cls schedule skymaps_initial = inr st /\
    skymaps st =
      map (fun r => load_skymap (skymap (skymap_source schedule r)))
        schedule /\
    clss st =
      map (fun r => load_cls (skymap (skymap_source schedule r))) schedule.
Proof.
  apply (skymaps_loop_ok schedule [] skymaps_initial).
  intros s _. split; reflexivity.
Qed.

End SkymapsPerRow.

(** The third row of the sample schedule names ["other.fits"] but is shown
    with the map of ["baseline.fits"]; both ["GW"] rows keep their own. *)
Example skymaps_per_row_sample :
  option_map AnimateSurvey.skymaps
    (match AnimateSurvey.skymaps_loop (fun f => f) (fun f => f)
             sample_schedule AnimateSurvey.skymaps_initial with
     | inr st => Some st
     | inl _ => None
     end) =
  Some ["baseline.fits"; "gw-1.fits"; "baseline.fits"; "gw-2.fits"].
Proof. reflexivity. Qed.

Section FramePatches.

Import AnimateSurvey.
Local Open Scope nat_scope.

Context {Center Color : Type}.
Variable colors : list Color.
Variable survey_set : list string.

Lemma list_index_ok (l : list string) (x : string) :
  In x l ->
  exists idx,
    list_index l x = inr idx /\ nth_error l idx = Some x /\
    idx < List.length l.
Proof.
  induction l as [| y l IH]; intros Hin; [contradiction |].
  simpl. destruct (String.eqb_spec x y) as [-> | Hne].
  - exists 0. simpl. repeat split. lia.
  - destruct Hin as [Heq | Hin]; [congruence |].
    destruct (IH Hin) as (idx & Hidx & Hnth & Hlt).
    exists (S idx). rewrite Hidx. simpl. repeat split; [exact Hnth | lia].
Qed.

Lemma frame_patches_ok (rows : list (row Center)) (now : R) :
  (forall r, In r rows -> In (survey r) survey_set) ->
  List.length colors = List.length survey_set ->
  exists patches,
    frame_patches colors survey_set rows now = inr patches /\
    Forall2
      (fun r p =>
         fst p = center r /\
         exists idx,
           nth_error survey_set idx = Some (survey r) /\
           nth_error colors idx = Some (snd p))
      (filter (fun r => Rleb (time r) now) rows) patches.
Proof.
  intros Hsurveys Hlen. induction rows as [| r rows IH]; simpl.
  - exists []. split; [reflexivity | constructor].
  - destruct IH as (patches & Hrun & Hall).
    { intros r' Hr'. apply Hsurveys. right. exact Hr'. }
    destruct (Rleb (time r) now).
    + destruct (list_index_ok survey_set (survey r))
        as (idx & Hidx & Hnth & Hlt).
      { apply Hsurveys. left. reflexivity. }
      rewrite Hidx.
      destruct (nth_error colors idx) as [c |] eqn:Hc.
      * rewrite Hrun. eexists. split; [reflexivity |].
        constructor; [| exact Hall].
        simpl. split; [reflexivity |]. exists idx. auto.
      * apply nth_error_None in Hc. lia.
    + exists patches. auto.
Qed.

(** X7: for a frame index below the number of rows, with [survey_set]
    holding every survey of the schedule and one color per entry, the patch
    loop of [animate] raises nothing.  It draws, in schedule order, the rows
    that start no later than row [i], each in the color at the position of
    its survey in [survey_set]; row [i] itself is among them. *)
Theorem animate_patches (schedule : list (row Center)) (i : nat) :
  (forall s, In s (map survey schedule) -> In s survey_set) ->
  List.length colors = List.length survey_set ->
  i < List.length schedule ->
  exists ri patches,
    nth_error schedule i = Some ri /\
    animate colors survey_set schedule i = inr patches /\
    Forall2
      (fun r p =>
         fst p = center r /\
         exists idx,
           nth_error survey_set idx = Some (survey r) /\
           nth_error colors idx = Some (snd p))
      (filter (fun r => Rleb (time r) (time ri)) schedule) patches /\
    In ri (filter (fun r => Rleb (time r) (time ri)) schedule).
Proof.
  intros Hsurveys Hlen Hi.
  destruct (nth_error schedule i) as [ri |] eqn:Hri;
    [| apply nth_error_None in Hri; lia].
  destruct (frame_patches_ok schedule (time ri)) as (patches & Hrun & Hall).
  { intros r Hr. apply Hsurveys. apply in_map. exact Hr. }
  { exact Hlen. }
  exists ri, patches. split; [reflexivity |].
  split; [| split; [exact Hall |]].
  - unfold animate. rewrite nth_error_map, Hri. simpl. exact Hrun.
  - apply filter_In. split; [eapply nth_error_In; exact Hri |].
    apply Rleb_true_iff. apply Rle_refl.
Qed.

End FramePatches.

Lemma animate_patches_witness :
  exists ri patches,
    nth_error sample_schedule 1 = Some ri /\
    AnimateSurvey.animate ["blue"; "red"] ["GW"; "baseline"]
      sample_schedule 1 = inr patches /\
    Forall2
      (fun r p =>
         fst p = center r /\
         exists idx,
           nth_error ["GW"; "baseline"] idx = Some (survey r) /\
           nth_error ["blue"; "red"] idx = Some (snd p))
      (filter (fun r => Rleb (time r) (time ri))
         sample_schedule) patches /\
    In ri
      (filter (fun r => Rleb (time r) (time ri))
         sample_schedule).
Proof.
  apply (animate_patches ["blue"; "red"] ["GW"; "baseline"]
           sample_schedule 1).
  - simpl. intuition.
  - reflexivity.
  - simpl. lia.
Defined.

(** * Properties of the metrics script *)

Section MetricsBasics.

Import Metrics.
Local Open Scope nat_scope.

Lemma where_from_bounds {A : Type} (mask : A -> bool) (l : list A)
    (start i : nat) :
  In i (where_from mask l start) -> start <= i < start + List.length l.
Proof.
  revert start. induction l as [| x l IH]; intros start; simpl;
    [contradiction |].
  destruct (mask x); simpl.
  - intros [<- | Hin]; [lia |]. apply IH in Hin. lia.
  - intros Hin. apply IH in Hin. lia.
Qed.

Lemma where_from_length {A : Type} (mask : A -> bool) (l : list A)
    (start : nat) :
  List.length (where_from mask l start) = List.length (filter mask l).
Proof.
  revert start. induction l as [| x l IH]; intros start; simpl;
    [reflexivity |].
  destruct (mask x); simpl; rewrite IH; reflexivity.
Qed.

Lemma np_where_bounds {A : Type} (mask : A -> bool) (l : list A) (i : nat) :
  In i (np_where mask l) -> i < List.length l.
Proof.
  intros Hin. apply where_from_bounds in Hin. lia.
Qed.

Lemma where_from_sorted {A : Type} (mask : A -> bool) (l : list A)
    (start : nat) :
  StronglySorted lt (where_from mask l start).
Proof.
  revert start. induction l as [| x l IH]; intros start; simpl.
  - constructor.
  - destruct (mask x); [| apply IH].
    constructor; [apply IH |].
    apply Forall_forall. intros i Hi. apply where_from_bounds in Hi. lia.
Qed.

Lemma np_where_sorted {A : Type} (mask : A -> bool) (l : list A) :
  StronglySorted lt (np_where mask l).
Proof. apply where_from_sorted. Qed.

Lemma sorted_nth_lt (l : list nat) (j k a b : nat) :
  StronglySorted lt l -> j < k ->
  nth_error l j = Some a -> nth_error l k = Some b -> a < b.
Proof.
  intros Hs. revert j k. induction Hs as [| x l Hs IH Hx]; intros j k Hjk Hj Hk.
  - destruct j; discriminate.
  - destruct k as [| k]; [lia |]. simpl in Hk.
    destruct j as [| j].
    + simpl in Hj. injection Hj as <-.
      rewrite Forall_forall in Hx. apply Hx.
      eapply nth_error_In. exact Hk.
    + simpl in Hj. apply (IH j k); [lia | assumption | assumption].
Qed.

Lemma np_where_length {A : Type} (mask : A -> bool) (l : list A) :
  List.length (np_where mask l) = List.length (filter mask l).
Proof. apply where_from_length. Qed.

Lemma array_set_ok (a : list nat) (i v : nat) :
  i < List.length a ->
  exists a',
    array_set a i v = inr a' /\ List.length a' = List.length a /\
    forall j, nth_error a' j = if j =? i then Some v else nth_error a j.
Proof.
  revert i. induction a as [| x a IH]; intros i Hi; simpl in Hi; [lia |].
  destruct i as [| i]; simpl.
  - exists (v :: a). repeat split. intros [| j]; reflexivity.
  - destruct (IH i ltac:(lia)) as (a' & Hset & Hlen & Hnth).
    rewrite Hset. exists (x :: a'). simpl. repeat split; [lia |].
    intros [| j]; [reflexivity |]. simpl. apply Hnth.
Qed.

Lemma set_exposure_ok (E : dict (list nat)) (key : string) (cc v : nat)
    (a : list nat) :
  dict_get E key = Some a -> cc < List.length a ->
  exists E',
    set_exposure E key cc v = inr E' /\
    (forall k j,
       exposure E' k j =
       if String.eqb k key && (j =? cc) then Some v else exposure E k j) /\
    (forall k b, dict_get E k = Some b ->
       exists b', dict_get E' k = Some b' /\
         List.length b' = List.length b).
Proof.
  intros Hget Hcc. unfold set_exposure. rewrite Hget.
  destruct (array_set_ok a cc v Hcc) as (a' & Hset & Hlen & Hnth).
  rewrite Hset. eexists. split; [reflexivity |]. split.
  - intros k j. unfold exposure. rewrite dict_get_set.
    destruct (String.eqb_spec k key) as [-> | Hk]; simpl.
    + rewrite Hget, Hnth. reflexivity.
    + reflexivity.
  - intros k b Hb. rewrite dict_get_set.
    destruct (String.eqb_spec k key) as [-> | Hk].
    + exists a'. split; [reflexivity | congruence].
    + exists b. auto.
Qed.

End MetricsBasics.

Section MetricsLoops.

Import Metrics.
Local Open Scope nat_scope.

Context {Center : Type}.
Variable schedule : list (row Center).
Variable time_index : list nat.
Variable idx : list nat.
Variable survey_set : list string.
Variable ntiles : nat.
Variable far : R -> Prop.

Lemma iloc_ok (positions : list nat) :
  (forall i, In i positions -> i < List.length time_index) ->
  (forall n, In n time_index -> n < List.length schedule) ->
  exists exps,
    iloc schedule time_index positions = inr exps /\
    List.length exps = List.length positions /\
    forall r, In r exps -> In r schedule.
Proof.
  intros Hpos Hindex. induction positions as [| i rest IH]; simpl.
  - exists []. repeat split. intros r [].
  - destruct (nth_error time_index i) as [n |] eqn:Hn.
    2:{ apply nth_error_None in Hn.
        specialize (Hpos i (or_introl eq_refl)). lia. }
    destruct (nth_error schedule n) as [r |] eqn:Hr.
    2:{ apply nth_error_None in Hr. apply nth_error_In in Hn.
        specialize (Hindex n Hn). lia. }
    destruct IH as (exps & Hrun & Hlen & Hin).
    { intros j Hj. apply Hpos. right. exact Hj. }
    rewrite Hrun. exists (r :: exps). simpl. repeat split; [lia |].
    intros r' [<- | Hr']; [eapply nth_error_In; exact Hr | auto].
Qed.

Lemma iloc_nth (positions : list nat) (exps : list (row Center)) (j : nat)
    (r : row Center) :
  iloc schedule time_index positions = inr exps ->
  nth_error exps j = Some r ->
  exists p n,
    nth_error positions j = Some p /\ nth_error time_index p = Some n /\
    nth_error schedule n = Some r.
Proof.
  revert exps j. induction positions as [| p rest IH]; intros exps j; simpl.
  - intros H. injection H as <-. destruct j; discriminate.
  - destruct (nth_error time_index p) as [n |] eqn:Hn; [| discriminate].
    destruct (nth_error schedule n) as [r0 |] eqn:Hr0; [| discriminate].
    destruct (iloc schedule time_index rest) as [e | rows] eqn:Hrest;
      [discriminate |].
    intros H. injection H as <-.
    destruct j as [| j]; simpl.
    + intros H. injection H as <-. exists p, n. auto.
    + intros Hj. apply (IH rows j eq_refl Hj).
Qed.

Lemma gaps_loop_step (exps : list (row Center)) (s : string)
    (jj kk : nat) (rest : list nat) (D : dict (list R)) :
  gaps_loop exps s (jj :: kk :: rest) D =
  match nth_error exps kk, nth_error exps jj with
  | Some rk, Some rj =>
      if isclose (time rk - time rj) 0
      then gaps_loop exps s (kk :: rest) D
      else
        match dict_get D s with
        | None => inl KeyError
        | Some l =>
            gaps_loop exps s (kk :: rest)
              (dict_set D s (l ++ [(time rk - time rj)%R])%list)
        end
  | _, _ => inl IndexError
  end.
Proof. reflexivity. Qed.

Lemma gaps_loop_ok (exps : list (row Center)) (s : string)
    (idz : list nat) (D : dict (list R)) :
  StronglySorted lt idz ->
  (forall i, In i idz -> i < List.length exps) ->
  (forall jj kk rj rk, jj < kk ->
     nth_error exps jj = Some rj -> nth_error exps kk = Some rk ->
     isclose (time rk - time rj) 0 = false -> far (time rk - time rj)%R) ->
  (exists g, dict_get D s = Some g) ->
  (forall k g, dict_get D k = Some g -> Forall far g) ->
  exists D',
    gaps_loop exps s idz D = inr D' /\
    (forall k g, dict_get D k = Some g -> exists g', dict_get D' k = Some g') /\
    (forall k g, dict_get D' k = Some g -> Forall far g).
Proof.
  intros Hsorted. revert D.
  induction Hsorted as [| jj rest Hsorted IH Hjj]; intros D Hidz Hgap Hkey Hfar.
  - exists D. simpl. repeat split; eauto.
  - destruct rest as [| kk rest'].
    + exists D. simpl. repeat split; eauto.
    + rewrite gaps_loop_step.
      destruct (nth_error exps kk) as [rk |] eqn:Hk.
      2:{ apply nth_error_None in Hk.
          specialize (Hidz kk (or_intror (or_introl eq_refl))). lia. }
      destruct (nth_error exps jj) as [rj |] eqn:Hj.
      2:{ apply nth_error_None in Hj.
          specialize (Hidz jj (or_introl eq_refl)). lia. }
      assert (Hrest : forall i, In i (kk :: rest') -> i < List.length exps).
      { intros i Hi. apply Hidz. right. exact Hi. }
      assert (Hlt : jj < kk).
      { rewrite Forall_forall in Hjj. apply Hjj. left. reflexivity. }
      destruct (isclose (time rk - time rj) 0) eqn:Hclose.
      * apply IH; assumption.
      * destruct Hkey as (g & Hg). rewrite Hg.
        destruct (IH (dict_set D s (g ++ [(time rk - time rj)%R])%list))
          as (D' & Hrun & Hkeys & Hfar').
        -- exact Hrest.
        -- exact Hgap.
        -- eexists. rewrite dict_get_set, String.eqb_refl. reflexivity.
        -- intros k g0. rewrite dict_get_set.
           destruct (String.eqb_spec k s) as [-> | _].
           ++ intros H. injection H as <-. apply Forall_app. split.
              ** exact (Hfar s g Hg).
              ** constructor; [| constructor].
                 exact (Hgap jj kk rj rk Hlt Hj Hk Hclose).
           ++ apply Hfar.
        -- exists D'. split; [exact Hrun |]. split; [| exact Hfar'].
           intros k g0 Hk0.
           destruct (String.eqb_spec k s) as [-> | Hks].
           ++ apply (Hkeys s (g ++ [(time rk - time rj)%R])%list).
              rewrite dict_get_set, String.eqb_refl. reflexivity.
           ++ apply (Hkeys k g0). rewrite dict_get_set.
              destruct (String.eqb_spec k s); [contradiction | exact Hk0].
Qed.

Lemma surveys_loop_step (exps : list (row Center)) (cc : nat) (s : string)
    (rest : list string) (st : dict (list nat) * dict (list R)) :
  surveys_loop exps cc (s :: rest) st =
  match np_where (fun r => String.eqb (survey r) s) exps with
  | [] => surveys_loop exps cc rest st
  | idz =>
      match set_exposure (fst st) s cc (List.length idz) with
      | inl e => inl e
      | inr exposures =>
          match gaps_loop exps s idz (snd st) with
          | inl e => inl e
          | inr dts => surveys_loop exps cc rest (exposures, dts)
          end
      end
  end.
Proof.
  simpl. destruct (np_where (fun r => String.eqb (survey r) s) exps);
    reflexivity.
Qed.

Lemma surveys_loop_ok (exps : list (row Center)) (cc : nat)
    (surveys : list string) (st : dict (list nat) * dict (list R)) :
  cc < ntiles ->
  (forall jj kk rj rk, jj < kk ->
     nth_error exps jj = Some rj -> nth_error exps kk = Some rk ->
     isclose (time rk - time rj) 0 = false -> far (time rk - time rj)%R) ->
  incl surveys survey_set ->
  state_ok far survey_set ntiles st ->
  exists st',
    surveys_loop exps cc surveys st = inr st' /\
    state_ok far survey_set ntiles st' /\
    (forall k j,
       j <> cc \/ ~ In k surveys \/ survey_count exps k = 0 ->
       exposure (fst st') k j = exposure (fst st) k j) /\
    (forall k, In k surveys -> survey_count exps k <> 0 ->
       exposure (fst st') k cc = Some (survey_count exps k)).
Proof.
  intros Hcc Hgap. revert st.
  induction surveys as [| s rest IH]; intros st Hincl Hok.
  - exists st. split; [reflexivity |]. split; [exact Hok |].
    split; [reflexivity | intros k []].
  - assert (Hrest : incl rest survey_set).
    { intros k Hk. apply Hincl. right. exact Hk. }
    rewrite surveys_loop_step.
    pose proof (np_where_length (fun r => String.eqb (survey r) s) exps)
      as Hlen.
    fold (survey_count exps s) in Hlen.
    pose proof (np_where_bounds (fun r => String.eqb (survey r) s) exps)
      as Hbounds.
    pose proof (np_where_sorted (fun r => String.eqb (survey r) s) exps)
      as Hsorted.
    destruct (np_where (fun r => String.eqb (survey r) s) exps)
      as [| i0 idz'] eqn:Hidz.
    + simpl in Hlen.
      destruct (IH st Hrest Hok) as (st' & Hrun & Hok' & Hsame & Hset).
      exists st'. split; [exact Hrun |]. split; [exact Hok' |]. split.
      * intros k j Hcase. apply Hsame.
        destruct Hcase as [H | [H | H]]; auto.
        destruct (String.eqb_spec k s) as [-> | Hks]; [auto |].
        right. left. intros Hin. apply H. right. exact Hin.
      * intros k [<- | Hk] Hcount; [congruence | auto].
    + cbv beta iota zeta.
      destruct Hok as (Hexp & Hdts & Hfar).
      destruct (Hexp s) as (a & Ha & Halen).
      { right. apply Hincl. left. reflexivity. }
      destruct (set_exposure_ok (fst st) s cc (List.length (i0 :: idz')) a Ha)
        as (E1 & Hset1 & Hexp1 & Hkeys1); [lia |].
      rewrite Hset1.
      destruct (gaps_loop_ok exps s (i0 :: idz') (snd st))
        as (D1 & Hgaps & Hkeys & Hfar1).
      { exact Hsorted. }
      { exact Hbounds. }
      { exact Hgap. }
      { apply Hdts. apply Hincl. left. reflexivity. }
      { exact Hfar. }
      rewrite Hgaps.
      destruct (IH (E1, D1) Hrest) as (st' & Hrun & Hok' & Hsame & Hset).
      { split; [| split]; simpl.
        - intros k Hk. destruct (Hexp k Hk) as (b & Hb & Hblen).
          destruct (Hkeys1 k b Hb) as (b' & Hb' & Hlen').
          exists b'. split; [exact Hb' | congruence].
        - intros k Hk. destruct (Hdts k Hk) as (g & Hg).
          exact (Hkeys k g Hg).
        - exact Hfar1. }
      exists st'. split; [exact Hrun |]. split; [exact Hok' |]. split.
      * intros k j Hcase.
        destruct (String.eqb_spec k s) as [-> | Hks].
        -- assert (Hj : j <> cc).
           { destruct Hcase as [H | [H | H]]; [exact H | |].
             - exfalso. apply H. left. reflexivity.
             - rewrite <- Hlen in H. discriminate. }
           rewrite Hsame by (left; exact Hj). simpl. rewrite Hexp1.
           rewrite String.eqb_refl. simpl.
           destruct (Nat.eqb_spec j cc); [contradiction | reflexivity].
        -- rewrite Hsame.
           ++ simpl. rewrite Hexp1.
              destruct (String.eqb_spec k s); [contradiction | reflexivity].
           ++ destruct Hcase as [H | [H | H]]; auto.
              right. left. intros Hin. apply H. right. exact Hin.
      * intros k Hk Hcount.
        destruct (in_dec string_dec k rest) as [Hin | Hnin].
        -- apply Hset; assumption.
        -- destruct Hk as [<- | Hk]; [| contradiction].
           rewrite Hsame by (right; left; exact Hnin). simpl.
           rewrite Hexp1, String.eqb_refl, Nat.eqb_refl. simpl.
           rewrite <- Hlen. reflexivity.
Qed.

End MetricsLoops.

Section MetricsMain.

Import Metrics.
Local Open Scope nat_scope.

Context {Center : Type}.
Variable schedule : list (row Center).
Variable time_index : list nat.
Variable idx : list nat.
Variable survey_set : list string.
Variable ntiles : nat.
Variable far : R -> Prop.

(** [idx] has one entry per row of the table, and the index on [time]
    lists row numbers of the table. *)
Hypothesis idx_length : List.length idx = List.length time_index.
Hypothesis time_index_rows :
  forall n, In n time_index -> n < List.length schedule.

(** [far] holds of the time difference between a row and a row later in
    the index, when the difference is not close to zero. *)
Hypothesis far_gap :
  forall a b na nb ra rb, a < b ->
    nth_error time_index a = Some na -> nth_error time_index b = Some nb ->
    nth_error schedule na = Some ra -> nth_error schedule nb = Some rb ->
    isclose (time rb - time ra) 0 = false -> far (time rb - time ra)%R.

Lemma tile_step_ok (st : dict (list nat) * dict (list R)) (cc : nat) :
  cc < ntiles ->
  state_ok far survey_set ntiles st ->
  (forall k, In k ("all" :: survey_set) -> exposure (fst st) k cc = Some 0) ->
  exists st',
    tile_step schedule time_index idx survey_set st cc = inr st' /\
    state_ok far survey_set ntiles st' /\
    (forall k j, j <> cc -> exposure (fst st') k j = exposure (fst st) k j) /\
    column_ok schedule time_index idx survey_set (fst st') cc.
Proof.
  intros Hcc Hok Hzero. unfold tile_step.
  pose proof (np_where_length (Nat.eqb cc) idx) as Hlen.
  pose proof (np_where_bounds (Nat.eqb cc) idx) as Hbounds.
  destruct (np_where (Nat.eqb cc) idx) as [| i0 idy'] eqn:Hidy.
  - exists st. split; [reflexivity |]. split; [exact Hok |].
    split; [reflexivity |].
    exists []. simpl in Hlen. rewrite Hidy. simpl.
    split; [reflexivity |]. split; [exact Hlen |].
    split; [intros r [] |]. split; [| split].
    + intros s _ Hcount. exfalso. apply Hcount. reflexivity.
    + intros s Hs _ _. apply Hzero. right. exact Hs.
    + intros _. apply Hzero. left. reflexivity.
  - destruct (iloc_ok schedule time_index (i0 :: idy'))
      as (exps & Hiloc & Hexps_len & Hexps_in).
    { intros i Hi. rewrite <- idx_length. apply Hbounds. exact Hi. }
    { exact time_index_rows. }
    rewrite Hiloc.
    destruct Hok as (Hexp & Hdts & Hfar).
    destruct (Hexp "all" (or_introl eq_refl)) as (a & Ha & Halen).
    destruct (set_exposure_ok (fst st) "all" cc (List.length exps) a Ha)
      as (E1 & Hset1 & Hexp1 & Hkeys1); [lia |].
    rewrite Hset1.
    assert (Hgap : forall jj kk rj rk, jj < kk ->
              nth_error exps jj = Some rj -> nth_error exps kk = Some rk ->
              isclose (time rk - time rj) 0 = false ->
              far (time rk - time rj)%R).
    { intros jj kk rj rk Hlt Hj Hk Hclose.
      destruct (iloc_nth schedule time_index _ _ _ _ Hiloc Hj)
        as (pj & nj & Hpj & Hnj & Hrj).
      destruct (iloc_nth schedule time_index _ _ _ _ Hiloc Hk)
        as (pk & nk & Hpk & Hnk & Hrk).
      apply (far_gap pj pk nj nk rj rk); try assumption.
      apply (sorted_nth_lt (i0 :: idy') jj kk); try assumption.
      rewrite <- Hidy. apply np_where_sorted. }
    destruct (surveys_loop_ok survey_set ntiles far exps cc survey_set
                (E1, snd st) Hcc Hgap (incl_refl _))
      as (st' & Hrun & Hok' & Hsame & Hset).
    { split; [| split]; simpl.
      - intros k Hk. destruct (Hexp k Hk) as (b & Hb & Hblen).
        destruct (Hkeys1 k b Hb) as (b' & Hb' & Hlen').
        exists b'. split; [exact Hb' | congruence].
      - exact Hdts.
      - exact Hfar. }
    exists st'. split; [exact Hrun |]. split; [exact Hok' |]. split.
    + intros k j Hj. rewrite Hsame by (left; exact Hj). simpl.
      rewrite Hexp1.
      destruct (Nat.eqb_spec j cc); [contradiction |].
      rewrite andb_false_r. reflexivity.
    + exists exps. split; [rewrite Hidy; exact Hiloc |].
      split; [rewrite Hexps_len, Hlen; reflexivity |].
      split; [exact Hexps_in |]. split; [| split].
      * intros s Hs Hcount. apply Hset; assumption.
      * intros s Hs Hne Hcount.
        rewrite Hsame by (right; right; exact Hcount). simpl.
        rewrite Hexp1.
        destruct (String.eqb_spec s "all"); [contradiction |]. simpl.
        apply Hzero. right. exact Hs.
      * intros Hcase. rewrite Hsame by (right; exact Hcase). simpl.
        rewrite Hexp1, String.eqb_refl, Nat.eqb_refl. reflexivity.
Qed.

Lemma column_ok_ext (E E' : dict (list nat)) (cc : nat) :
  (forall k, exposure E' k cc = exposure E k cc) ->
  column_ok schedule time_index idx survey_set E cc ->
  column_ok schedule time_index idx survey_set E' cc.
Proof.
  intros Hsame (exps & H1 & H2 & H3 & H4 & H5 & H6).
  exists exps. repeat split; try assumption.
  - intros s Hs Hc. rewrite Hsame. auto.
  - intros s Hs Hne Hc. rewrite Hsame. auto.
  - intros Hc. rewrite Hsame. auto.
Qed.

Lemma tiles_loop_ok (tiles : list nat)
    (st : dict (list nat) * dict (list R)) :
  NoDup tiles ->
  (forall cc, In cc tiles -> cc < ntiles) ->
  state_ok far survey_set ntiles st ->
  (forall cc k, In cc tiles -> In k ("all" :: survey_set) ->
     exposure (fst st) k cc = Some 0) ->
  exists st',
    tiles_loop schedule time_index idx survey_set tiles st = inr st' /\
    state_ok far survey_set ntiles st' /\
    (forall k j, ~ In j tiles ->
       exposure (fst st') k j = exposure (fst st) k j) /\
    (forall cc, In cc tiles ->
       column_ok schedule time_index idx survey_set (fst st') cc).
Proof.
  intros Hnd. revert st.
  induction Hnd as [| cc rest Hnin Hnd IH]; intros st Hlt Hok Hzero.
  - exists st. split; [reflexivity |]. split; [exact Hok |].
    split; [reflexivity | intros cc []].
  - destruct (tile_step_ok st cc) as (st1 & Hstep & Hok1 & Hother & Hcol).
    { apply Hlt. left. reflexivity. }
    { exact Hok. }
    { intros k Hk. apply Hzero; [left; reflexivity | exact Hk]. }
    destruct (IH st1) as (st' & Hrun & Hok' & Hsame & Hcols).
    { intros c Hc. apply Hlt. right. exact Hc. }
    { exact Hok1. }
    { intros c k Hc Hk. rewrite Hother.
      - apply Hzero; [right; exact Hc | exact Hk].
      - intros ->. contradiction. }
    exists st'. simpl. rewrite Hstep. split; [exact Hrun |].
    split; [exact Hok' |]. split.
    + intros k j Hj. rewrite Hsame by (intros H; apply Hj; right; exact H).
      apply Hother. intros ->. apply Hj. left. reflexivity.
    + intros c [<- | Hc]; [| apply Hcols; exact Hc].
      apply (column_ok_ext (fst st1)); [| exact Hcol].
      intros k. apply Hsame. exact Hnin.
Qed.

Lemma initial_fold (l : list string) (E0 E : dict (list nat))
    (D0 D : dict (list R)) (k : string) :
  fold_left
    (fun (st : dict (list nat) * dict (list R)) survey =>
       (dict_set (fst st) survey (repeat 0 ntiles),
        dict_set (snd st) survey []))
    l (E0, D0) = (E, D) ->
  (In k l ->
   dict_get E k = Some (repeat 0 ntiles) /\ dict_get D k = Some []) /\
  (~ In k l -> dict_get E k = dict_get E0 k /\ dict_get D k = dict_get D0 k).
Proof.
  revert E0 D0. induction l as [| s l IH]; intros E0 D0; simpl.
  - intros H. injection H as <- <-. split; [intros [] | auto].
  - intros H. apply IH in H. destruct H as [IHin IHout].
    split.
    + intros Hin. destruct (in_dec string_dec k l) as [Hl | Hl]; [auto |].
      destruct Hin as [-> | Hin]; [| contradiction].
      destruct (IHout Hl) as [H1 H2]. rewrite H1, H2.
      rewrite !dict_get_set, String.eqb_refl. auto.
    + intros Hnin.
      destruct (IHout (fun H => Hnin (or_intror H))) as [H1 H2].
      rewrite H1, H2, !dict_get_set.
      destruct (String.eqb_spec k s) as [-> | _]; [| auto].
      exfalso. apply Hnin. left. reflexivity.
Qed.

Lemma initial_ok :
  state_ok far survey_set ntiles (initial survey_set ntiles) /\
  forall cc k, cc < ntiles -> In k ("all" :: survey_set) ->
    exposure (fst (initial survey_set ntiles)) k cc = Some 0.
Proof.
  unfold initial.
  match goal with
  | |- context [fold_left ?f survey_set ?i] =>
      destruct (fold_left f survey_set i) as [E D] eqn:Hst
  end.
  pose proof (fun k => initial_fold survey_set [] E [] D k Hst) as Hfold.
  simpl in Hfold.
  assert (Hget : forall k, In k ("all" :: survey_set) ->
            dict_get (dict_set E "all" (repeat 0 ntiles)) k =
            Some (repeat 0 ntiles)).
  { intros k Hk. rewrite dict_get_set.
    destruct (String.eqb_spec k "all") as [| Hne]; [reflexivity |].
    destruct Hk as [Hk | Hk]; [congruence |].
    apply (proj1 (Hfold k)). exact Hk. }
  split; [split; [| split] |]; simpl.
  - intros k Hk. exists (repeat 0 ntiles).
    split; [apply Hget; exact Hk | apply repeat_length].
  - intros s Hs. exists []. apply (proj1 (Hfold s)). exact Hs.
  - intros s g Hg.
    destruct (in_dec string_dec s survey_set) as [Hin | Hnin].
    + destruct (proj1 (Hfold s) Hin) as [_ H]. rewrite H in Hg.
      injection Hg as <-. constructor.
    + destruct (proj2 (Hfold s) Hnin) as [_ H]. rewrite H in Hg.
      discriminate.
  - intros cc k Hcc Hk. unfold exposure. rewrite (Hget k Hk).
    apply nth_error_repeat. exact Hcc.
Qed.

Lemma main_ok :
  exists E D,
    main schedule time_index idx survey_set ntiles = inr (E, D) /\
    state_ok far survey_set ntiles (E, D) /\
    forall cc, cc < ntiles ->
      column_ok schedule time_index idx survey_set E cc.
Proof.
  destruct initial_ok as [Hok Hzero].
  destruct (tiles_loop_ok (seq 0 ntiles) (initial survey_set ntiles))
    as ([E D] & Hrun & Hok' & _ & Hcols).
  - apply seq_NoDup.
  - intros cc Hcc. apply in_seq in Hcc. lia.
  - exact Hok.
  - intros cc k Hcc Hk. apply Hzero; [| exact Hk].
    apply in_seq in Hcc. lia.
  - exists E, D. split; [exact Hrun |]. split; [exact Hok' |].
    intros cc Hcc. apply Hcols. apply in_seq. lia.
Qed.

End MetricsMain.

Section MetricsCounts.

Import Metrics.
Local Open Scope nat_scope.

Context {Center : Type}.

Lemma list_sum_map_add {A : Type} (f g : A -> nat) (l : list A) :
  list_sum (map (fun x => f x + g x) l) =
  list_sum (map f l) + list_sum (map g l).
Proof.
  induction l as [| x l IH]; simpl; [reflexivity | rewrite IH; lia].
Qed.

Lemma list_sum_indicator (x : string) (l : list string) :
  NoDup l -> In x l ->
  list_sum (map (fun s => if String.eqb x s then 1 else 0) l) = 1.
Proof.
  induction 1 as [| y l Hy Hnd IH]; intros Hin; [contradiction |].
  simpl. destruct (String.eqb_spec x y) as [-> | Hne].
  - assert (Hzero : list_sum
                      (map (fun s => if String.eqb y s then 1 else 0) l) = 0).
    { clear IH Hin Hnd. induction l as [| z l IHl]; simpl; [reflexivity |].
      destruct (String.eqb_spec y z) as [-> | _].
      - exfalso. apply Hy. left. reflexivity.
      - apply IHl. intros H. apply Hy. right. exact H. }
    rewrite Hzero. reflexivity.
  - destruct Hin as [Heq | Hin]; [congruence |]. rewrite (IH Hin). reflexivity.
Qed.

Lemma survey_counts_sum (exps : list (row Center)) (l : list string) :
  NoDup l -> (forall r, In r exps -> In (survey r) l) ->
  list_sum (map (survey_count exps) l) = List.length exps.
Proof.
  intros Hnd. induction exps as [| r exps IH]; intros Hin.
  - unfold survey_count. simpl. clear Hnd Hin.
    induction l as [| s l IHl]; simpl; [reflexivity | exact IHl].
  - assert (Hstep : forall s,
              survey_count (r :: exps) s =
              (if String.eqb (survey r) s then 1 else 0) +
              survey_count exps s).
    { intros s. unfold survey_count. simpl.
      destruct (String.eqb (survey r) s); reflexivity. }
    rewrite (map_ext _ _ Hstep), list_sum_map_add.
    rewrite list_sum_indicator;
      [| exact Hnd | apply Hin; left; reflexivity].
    rewrite IH by (intros r' Hr'; apply Hin; right; exact Hr').
    reflexivity.
Qed.

Lemma Forall2_map_spec {A B : Type} (P : A -> B -> Prop) (f : A -> B)
    (l : list A) :
  (forall x, In x l -> P x (f x)) -> Forall2 P l (map f l).
Proof.
  induction l as [| x l IH]; intros H; simpl; constructor.
  - apply H. left. reflexivity.
  - apply IH. intros y Hy. apply H. right. exact Hy.
Qed.

Lemma survey_count_cases (exps : list (row Center)) (s : string) :
  survey_count exps s = 0 \/ survey_count exps s <> 0.
Proof. lia. Qed.

Lemma isclose_zero_false (dt : R) :
  isclose dt 0 = false -> (atol < Rabs dt)%R.
Proof.
  unfold isclose. intros H. apply Rleb_false_iff in H.
  rewrite Rabs_R0, Rmult_0_r, Rplus_0_r, Rminus_0_r in H. exact H.
Qed.

End MetricsCounts.

(** X8: with no survey called ["all"], [main] raises nothing, and for every
    tile [cc] the entry [exposures['all'][cc]] is the number of schedule
    rows matched to the tile, while [exposures[survey][cc]] is the number of
    rows of that survey among the rows [schedule.iloc] returns for the
    tile. *)
Theorem metrics_exposures {Center : Type} (schedule : list (row Center))
    (time_index idx : list nat) (survey_set : list string) (ntiles : nat) :
  List.length idx = List.length time_index ->
  (forall n, In n time_index -> (n < List.length schedule)%nat) ->
  ~ In "all" survey_set ->
  exists E D,
    Metrics.main schedule time_index idx survey_set ntiles = inr (E, D) /\
    forall cc, (cc < ntiles)%nat ->
      exists exps,
        Metrics.iloc schedule time_index (Metrics.np_where (Nat.eqb cc) idx) =
          inr exps /\
        Metrics.exposure E "all" cc =
          Some (List.length (filter (Nat.eqb cc) idx)) /\
        forall s, In s survey_set ->
          Metrics.exposure E s cc = Some (Metrics.survey_count exps s).
Proof.
  intros Hlen Hrows Hall.
  destruct (main_ok schedule time_index idx survey_set ntiles
              (fun dt => Metrics.isclose dt 0 = false) Hlen Hrows
              (fun _ _ _ _ _ _ _ _ _ _ _ H => H))
    as (E & D & Hrun & _ & Hcols).
  exists E, D. split; [exact Hrun |]. intros cc Hcc.
  destruct (Hcols cc Hcc) as (exps & Hiloc & Hn & _ & Hpos & Hzero & Htotal).
  exists exps. split; [exact Hiloc |]. split.
  - rewrite <- Hn. apply Htotal. left. exact Hall.
  - intros s Hs. destruct (survey_count_cases exps s) as [H0 | Hne].
    + rewrite H0. apply Hzero; [exact Hs | | exact H0].
      intros ->. contradiction.
    + apply Hpos; assumption.
Qed.

Lemma sample_time_index_rows (n : nat) :
  In n sample_time_index -> (n < List.length sample_schedule)%nat.
Proof. simpl. intuition lia. Qed.

Lemma sample_no_all : ~ In "all" sample_survey_set.
Proof. simpl. intros [H | [H | []]]; discriminate. Qed.

Lemma metrics_exposures_witness :
  exists E D,
    Metrics.main sample_schedule sample_time_index sample_idx
      sample_survey_set 3 = inr (E, D) /\
    forall cc, (cc < 3)%nat ->
      exists exps,
        Metrics.iloc sample_schedule sample_time_index
          (Metrics.np_where (Nat.eqb cc) sample_idx) = inr exps /\
        Metrics.exposure E "all" cc =
          Some (List.length (filter (Nat.eqb cc) sample_idx)) /\
        forall s, In s sample_survey_set ->
          Metrics.exposure E s cc = Some (Metrics.survey_count exps s).
Proof.
  exact (metrics_exposures sample_schedule sample_time_index sample_idx
           sample_survey_set 3 eq_refl sample_time_index_rows sample_no_all).
Defined.

(** X9: when [survey_set] lists each survey of the schedule once and none
    is called ["all"], the per-survey counts of a tile add up to its entry
    in [exposures['all']]. *)
Theorem metrics_exposures_sum {Center : Type} (schedule : list (row Center))
    (time_index idx : list nat) (survey_set : list string) (ntiles : nat) :
  List.length idx = List.length time_index ->
  (forall n, In n time_index -> (n < List.length schedule)%nat) ->
  ~ In "all" survey_set ->
  NoDup survey_set ->
  (forall r, In r schedule -> In (survey r) survey_set) ->
  exists E D,
    Metrics.main schedule time_index idx survey_set ntiles = inr (E, D) /\
    forall cc, (cc < ntiles)%nat ->
      exists counts,
        Forall2 (fun s n => Metrics.exposure E s cc = Some n)
          survey_set counts /\
        Metrics.exposure E "all" cc = Some (list_sum counts).
Proof.
  intros Hlen Hrows Hall Hnd Hsurveys.
  destruct (main_ok schedule time_index idx survey_set ntiles
              (fun dt => Metrics.isclose dt 0 = false) Hlen Hrows
              (fun _ _ _ _ _ _ _ _ _ _ _ H => H))
    as (E & D & Hrun & _ & Hcols).
  exists E, D. split; [exact Hrun |]. intros cc Hcc.
  destruct (Hcols cc Hcc) as (exps & _ & _ & Hin & Hpos & Hzero & Htotal).
  exists (map (Metrics.survey_count exps) survey_set). split.
  - apply Forall2_map_spec. intros s Hs.
    destruct (survey_count_cases exps s) as [H0 | Hne].
    + rewrite H0. apply Hzero; [exact Hs | | exact H0].
      intros ->. contradiction.
    + apply Hpos; assumption.
  - rewrite survey_counts_sum.
    + apply Htotal. left. exact Hall.
    + exact Hnd.
    + intros r Hr. apply Hsurveys. apply Hin. exact Hr.
Qed.

Lemma sample_survey_set_NoDup : NoDup sample_survey_set.
Proof.
  repeat constructor; simpl; intros H; intuition discriminate.
Qed.

Lemma sample_survey_set_complete (r : row nat) :
  In r sample_schedule -> In (survey r) sample_survey_set.
Proof.
  intros [<- | [<- | [<- | [<- | []]]]]; simpl; auto.
Qed.

Lemma metrics_exposures_sum_witness :
  exists E D,
    Metrics.main sample_schedule sample_time_index sample_idx
      sample_survey_set 3 = inr (E, D) /\
    forall cc, (cc < 3)%nat ->
      exists counts,
        Forall2 (fun s n => Metrics.exposure E s cc = Some n)
          sample_survey_set counts /\
        Metrics.exposure E "all" cc = Some (list_sum counts).
Proof.
  exact (metrics_exposures_sum sample_schedule sample_time_index sample_idx
           sample_survey_set 3 eq_refl sample_time_index_rows sample_no_all
           sample_survey_set_NoDup sample_survey_set_complete).
Defined.

(** X10: [main] raises nothing, and every time difference it records in
    [dts] is farther from zero than the absolute tolerance of
    [np.isclose]. *)
Theorem metrics_dts_apart {Center : Type} (schedule : list (row Center))
    (time_index idx : list nat) (survey_set : list string) (ntiles : nat) :
  List.length idx = List.length time_index ->
  (forall n, In n time_index -> (n < List.length schedule)%nat) ->
  exists E D,
    Metrics.main schedule time_index idx survey_set ntiles = inr (E, D) /\
    forall s g, dict_get D s = Some g ->
      Forall (fun dt => Metrics.atol < Rabs dt) g.
Proof.
  intros Hlen Hrows.
  destruct (main_ok schedule time_index idx survey_set ntiles
              (fun dt => Metrics.isclose dt 0 = false) Hlen Hrows
              (fun _ _ _ _ _ _ _ _ _ _ _ H => H))
    as (E & D & Hrun & (_ & _ & Hfar) & _).
  exists E, D. split; [exact Hrun |]. intros s g Hg.
  eapply Forall_impl; [| exact (Hfar s g Hg)].
  intros dt. apply isclose_zero_false.
Qed.

Lemma gap_time_index_rows (n : nat) :
  In n [0; 1; 2]%nat -> (n < List.length gap_schedule)%nat.
Proof. simpl. intuition lia. Qed.

Lemma isclose_gap_one : Metrics.isclose (1 - 0) 0 = false.
Proof.
  unfold Metrics.isclose. apply Rleb_false_iff.
  rewrite Rabs_R0, Rabs_right by lra.
  unfold Metrics.atol, Metrics.rtol. lra.
Qed.

Lemma isclose_gap_none : Metrics.isclose (1 - 1) 0 = true.
Proof.
  unfold Metrics.isclose. apply Rleb_true_iff.
  rewrite Rabs_R0. replace (1 - 1 - 0) with 0 by lra. rewrite Rabs_R0.
  unfold Metrics.atol, Metrics.rtol. lra.
Qed.

(** On [gap_schedule] the difference between the first two rows is
    recorded, the one between the last two is skipped. *)
Example metrics_gap_sample :
  exists E,
    Metrics.main gap_schedule [0; 1; 2]%nat [0; 0; 0]%nat ["deep"] 1 =
    inr (E, [("deep", [1 - 0])]).
Proof.
  unfold Metrics.main. cbn -[Metrics.isclose Rminus].
  rewrite isclose_gap_one. cbn -[Metrics.isclose Rminus].
  rewrite isclose_gap_none. eexists. reflexivity.
Qed.

Lemma metrics_dts_apart_witness :
  exists E,
    Metrics.main gap_schedule [0; 1; 2]%nat [0; 0; 0]%nat ["deep"] 1 =
      inr (E, [("deep", [1 - 0])]) /\
    Forall (fun dt => Metrics.atol < Rabs dt) [1 - 0].
Proof.
  destruct (metrics_dts_apart gap_schedule [0; 1; 2]%nat [0; 0; 0]%nat
              ["deep"] 1 eq_refl gap_time_index_rows)
    as (E & D & Hrun & Hall).
  destruct metrics_gap_sample as (E' & Hrun').
  rewrite Hrun' in Hrun. injection Hrun as <- <-.
  exists E'. split; [exact Hrun' |].
  apply (Hall "deep"). reflexivity.
Defined.

(** X11: when a survey is itself called ["all"], it shares its array with
    the totals: for a tile that has rows of that survey,
    [exposures['all'][cc]] ends as the number of those rows, not as the
    number of all rows of the tile. *)
Theorem metrics_all_collision {Center : Type} (schedule : list (row Center))
    (time_index idx : list nat) (survey_set : list string) (ntiles : nat) :
  List.length idx = List.length time_index ->
  (forall n, In n time_index -> (n < List.length schedule)%nat) ->
  In "all" survey_set ->
  exists E D,
    Metrics.main schedule time_index idx survey_set ntiles = inr (E, D) /\
    forall cc, (cc < ntiles)%nat ->
      exists exps,
        Metrics.iloc schedule time_index (Metrics.np_where (Nat.eqb cc) idx) =
          inr exps /\
        List.length exps = List.length (filter (Nat.eqb cc) idx) /\
        (Metrics.survey_count exps "all" <> 0%nat ->
         Metrics.exposure E "all" cc =
           Some (Metrics.survey_count exps "all")) /\
        (Metrics.survey_count exps "all" = 0%nat ->
         Metrics.exposure E "all" cc = Some (List.length exps)).
Proof.
  intros Hlen Hrows Hall.
  destruct (main_ok schedule time_index idx survey_set ntiles
              (fun dt => Metrics.isclose dt 0 = false) Hlen Hrows
              (fun _ _ _ _ _ _ _ _ _ _ _ H => H))
    as (E & D & Hrun & _ & Hcols).
  exists E, D. split; [exact Hrun |]. intros cc Hcc.
  destruct (Hcols cc Hcc) as (exps & Hiloc & Hn & _ & Hpos & _ & Htotal).
  exists exps. split; [exact Hiloc |]. split; [exact Hn |]. split.
  - intros Hne. apply Hpos; assumption.
  - intros H0. apply Htotal. right. exact H0.
Qed.

Lemma collision_time_index_rows (n : nat) :
  In n [0; 1]%nat -> (n < List.length collision_schedule)%nat.
Proof. simpl. intuition lia. Qed.

Lemma metrics_all_collision_witness :
  exists E D,
    Metrics.main collision_schedule [0; 1]%nat [0; 0]%nat ["all"; "deep"] 1 =
      inr (E, D) /\
    forall cc, (cc < 1)%nat ->
      exists exps,
        Metrics.iloc collision_schedule [0; 1]%nat
          (Metrics.np_where (Nat.eqb cc) [0; 0]%nat) = inr exps /\
        List.length exps = List.length (filter (Nat.eqb cc) [0; 0]%nat) /\
        (Metrics.survey_count exps "all" <> 0%nat ->
         Metrics.exposure E "all" cc =
           Some (Metrics.survey_count exps "all")) /\
        (Metrics.survey_count exps "all" = 0%nat ->
         Metrics.exposure E "all" cc = Some (List.length exps)).
Proof.
  apply (metrics_all_collision collision_schedule [0; 1]%nat [0; 0]%nat
           ["all"; "deep"] 1 eq_refl collision_time_index_rows).
  left. reflexivity.
Defined.

(** The tile of [collision_schedule] holds two rows, and its total reads 1. *)
Example metrics_all_collision_sample :
  match
    Metrics.main collision_schedule [0; 1]%nat [0; 0]%nat ["all"; "deep"] 1
  with
  | inr (E, _) => Metrics.exposure E "all" 0
  | inl _ => None
  end = Some 1%nat.
Proof. reflexivity. Qed.

(** X12: when [0 < nframes <= len(schedule)], with [survey_set] holding
    every survey of the schedule and one color per entry, frame selection
    yields at least one frame, and the patch loop of [animate] succeeds on
    every selected frame. *)
Theorem animate_every_frame {Center Color : Type} (colors : list Color)
    (survey_set : list string) (schedule : list (row Center))
    (nframes : Z) :
  (0 < nframes)%Z -> (nframes <= Z.of_nat (List.length schedule))%Z ->
  (forall s, In s (map survey schedule) -> In s survey_set) ->
  List.length colors = List.length survey_set ->
  exists selected,
    AnimateSurvey.frames (List.length schedule) nframes = inr selected /\
    In 0%nat selected /\
    forall i, In i selected ->
      exists patches,
        AnimateSurvey.animate colors survey_set schedule i = inr patches.
Proof.
  intros Hpos Hle Hsurveys Hcolors.
  destruct (frames_run (List.length schedule) nframes Hpos Hle)
    as (Hrun & Hk & Hkf).
  destruct (every_nth_from_seq _ Hk (List.length schedule) 0%nat 0%nat
              ltac:(lia))
    as (c & Heq & _ & Hbig).
  destruct (Hbig ltac:(lia)) as (Hc & Hlo & Hhi).
  eexists. split; [exact Hrun |]. rewrite Heq. split.
  - apply in_map_iff. exists 0%nat. split; [reflexivity |].
    apply in_seq. lia.
  - intros i Hi. apply in_map_iff in Hi. destruct Hi as (j & <- & Hj).
    apply in_seq in Hj.
    assert (Hlt : (0 + 0 + j * (List.length schedule / Z.to_nat nframes)
                   < List.length schedule)%nat) by nia.
    unfold AnimateSurvey.animate. rewrite nth_error_map.
    destruct (nth_error schedule _) as [ri |] eqn:Hri;
      [| apply nth_error_None in Hri; lia].
    simpl.
    destruct (frame_patches_ok colors survey_set schedule (time ri))
      as (patches & Hpatches & _).
    + intros r Hr. apply Hsurveys. apply in_map. exact Hr.
    + exact Hcolors.
    + exists patches. exact Hpatches.
Qed.

Lemma animate_every_frame_witness :
  exists selected,
    AnimateSurvey.frames (List.length sample_schedule) 2 = inr selected /\
    In 0%nat selected /\
    forall i, In i selected ->
      exists patches,
        AnimateSurvey.animate ["blue"; "red"] ["GW"; "baseline"]
          sample_schedule i = inr patches.
Proof.
  apply (animate_every_frame ["blue"; "red"] ["GW"; "baseline"]
           sample_schedule 2).
  - lia.
  - simpl. lia.
  - simpl. intuition.
  - reflexivity.
Defined.

(** X13: when the index lists the rows in order of non-decreasing time,
    every time difference recorded in [dts] is positive, and larger than the
    absolute tolerance of [np.isclose]. *)
Theorem metrics_dts_positive {Center : Type} (schedule : list (row Center))
    (time_index idx : list nat) (survey_set : list string) (ntiles : nat) :
  List.length idx = List.length time_index ->
  (forall n, In n time_index -> (n < List.length schedule)%nat) ->
  (forall a b na nb ra rb, (a < b)%nat ->
     nth_error time_index a = Some na -> nth_error time_index b = Some nb ->
     nth_error schedule na = Some ra -> nth_error schedule nb = Some rb ->
     time ra <= time rb) ->
  exists E D,
    Metrics.main schedule time_index idx survey_set ntiles = inr (E, D) /\
    forall s g, dict_get D s = Some g ->
      Forall (fun dt => Metrics.atol < dt) g.
Proof.
  intros Hlen Hrows Hsorted.
  destruct (main_ok schedule time_index idx survey_set ntiles
              (fun dt => Metrics.atol < dt) Hlen Hrows)
    as (E & D & Hrun & (_ & _ & Hfar) & _).
  - intros a b na nb ra rb Hab Ha Hb Hra Hrb Hclose.
    pose proof (Hsorted a b na nb ra rb Hab Ha Hb Hra Hrb) as Hle.
    apply isclose_zero_false in Hclose.
    rewrite Rabs_right in Hclose by lra. exact Hclose.
  - exists E, D. split; [exact Hrun | exact Hfar].
Qed.

Lemma gap_time_sorted (a b na nb : nat) (ra rb : row nat) :
  (a < b)%nat ->
  nth_error [0; 1; 2]%nat a = Some na ->
  nth_error [0; 1; 2]%nat b = Some nb ->
  nth_error gap_schedule na = Some ra ->
  nth_error gap_schedule nb = Some rb ->
  time ra <= time rb.
Proof.
  intros Hab Ha Hb Hra Hrb.
  assert (Hb3 : (b < 3)%nat).
  { apply (nth_error_Some [0; 1; 2]%nat b). rewrite Hb. discriminate. }
  destruct a as [| [| [| a]]]; [| | | lia];
    simpl in Ha; injection Ha as <-; simpl in Hra; injection Hra as <-;
    (destruct b as [| [| [| b]]]; [| | | lia]);
    try lia;
    simpl in Hb; injection Hb as <-; simpl in Hrb; injection Hrb as <-;
    simpl; lra.
Qed.

Lemma metrics_dts_positive_witness :
  exists E,
    Metrics.main gap_schedule [0; 1; 2]%nat [0; 0; 0]%nat ["deep"] 1 =
      inr (E, [("deep", [1 - 0])]) /\
    Forall (fun dt => Metrics.atol < dt) [1 - 0].
Proof.
  destruct (metrics_dts_positive gap_schedule [0; 1; 2]%nat [0; 0; 0]%nat
              ["deep"] 1 eq_refl gap_time_index_rows gap_time_sorted)
    as (E & D & Hrun & Hall).
  destruct metrics_gap_sample as (E' & Hrun').
  rewrite Hrun' in Hrun. injection Hrun as <- <-.
  exists E'. split; [exact Hrun' |].
  apply (Hall "deep"). reflexivity.
Defined.
